(** * DQN training driver ([train.py]): training loop, score plot and [main]

    A shallow embedding of [train_agent], [plot_scores] and [main].

    Python floats are idealised as exact rationals ([Q]); the agent, the Unity
    environment, the file system and the plotting back end are collaborators
    whose calls may return or raise, threaded through a state-and-exception
    monad together with a chronological trace of the observable calls. *)

From Stdlib Require Import String.
From Stdlib Require Import QArith Qminmax List Lia Bool Arith ZArith.
Import ListNotations.

Open Scope Q_scope.

(** ** Numbers *)

(** [a < b] on floats, as a boolean. *)
Definition Qlt_bool (a b : Q) : bool := negb (Qle_bool b a).

(** Python's two-argument [max(a, b)]: the first argument is kept unless the
    second is strictly greater. *)
Definition py_max (a b : Q) : Q := if Qlt_bool a b then b else a.

Definition Qsum (l : list Q) : Q := fold_right Qplus 0 l.

(** [np.mean] of a non-empty sequence, in exact arithmetic (numpy rounds the
    sum and the quotient; no theorem below bounds a mean by its data).  (On
    an empty sequence numpy answers [nan]; every call below passes a
    non-empty sequence, see [window_nonempty] and [slice_nonempty].) *)
Definition np_mean (l : list Q) : Q := Qsum l / inject_Z (Z.of_nat (length l)).

Fixpoint insert_sorted (x : Q) (l : list Q) : list Q :=
  match l with
  | [] => [x]
  | y :: l' => if Qle_bool x y then x :: l else y :: insert_sorted x l'
  end.

Definition sort (l : list Q) : list Q := fold_right insert_sorted [] l.

(** [np.median]: the middle element of the sorted data, or the mean of the two
    middle elements when the length is even. *)
Definition np_median (l : list Q) : Q :=
  let s := sort l in
  let n := length s in
  if Nat.even n
  then (nth (n / 2 - 1) s 0 + nth (n / 2) s 0) / 2
  else nth (n / 2) s 0.

(** [int(x)] of a float: truncation towards zero. *)
Definition py_int (x : Q) : Z := Z.quot (Qnum x) (Zpos (Qden x)).

(** Truth value of a Python int and of a float. *)
Definition truthy_int (n : nat) : bool := negb (n =? 0)%nat.
Definition truthy_float (x : Q) : bool := negb (Qeq_bool x 0).

(** ** [collections.deque(maxlen=...)] *)

(** [deque.append]: the item goes to the right end; when the bound is
    exceeded the leftmost (oldest) item is discarded. *)
Definition deque_append (maxlen : nat) (x : Q) (d : list Q) : list Q :=
  let d' := d ++ [x] in
  if (maxlen <? length d')%nat then tl d' else d'.

(** Python slice [l[start:stop]] for [0 <= start] and [0 <= stop]. *)
Definition slice (l : list Q) (start stop : nat) : list Q :=
  firstn (stop - start) (skipn start l).

(** ** Collaborators *)

Definition observation := list Q.
Definition action := Z.

Inductive exn : Type := Exception (msg : string).

Inductive outcome (X : Type) : Type :=
| Returns (x : X)
| Raises (e : exn).
Arguments Returns {X} x.
Arguments Raises {X} e.

(** What the training code reads from a [BrainInfo] of the default brain:
    the number of agents and the first agent's observation, reward and
    termination flag. *)
Record brain_info : Type := {
  agents : nat;
  vector_observation : observation;
  reward : Q;
  local_done : bool
}.

(** The Unity environment ([UnityEnvironment]). *)
Record Env (E : Type) : Type := {
  env_open : string -> bool -> E -> outcome unit * E;
  vector_action_space_size : E -> nat;
  env_reset : E -> outcome brain_info * E;
  env_step : action -> E -> outcome brain_info * E;
  env_close : E -> outcome unit * E
}.
Arguments env_open {E}.
Arguments vector_action_space_size {E}.
Arguments env_reset {E}.
Arguments env_step {E}.
Arguments env_close {E}.

(** Constructor arguments of [Agent]. *)
Record agent_config : Type := {
  cfg_state_size : nat;
  cfg_action_size : nat;
  cfg_train : bool;
  cfg_lin_feats : list nat;
  cfg_bn : bool;
  cfg_dropout_prob : Q;
  cfg_buffer_size : Z;
  cfg_batch_size : nat;
  cfg_lr : Q;
  cfg_gamma : Q;
  cfg_tau : Q;
  cfg_update_freq : nat;
  cfg_device : option string
}.

(** The agent module ([agent.Agent]): construction, [act] and [step]. *)
Record AgentOps (A : Type) : Type := {
  agent_init : agent_config -> A -> outcome unit * A;
  agent_act : observation -> Q -> A -> outcome action * A;
  agent_step : observation -> action -> Q -> observation -> bool -> A -> outcome unit * A
}.
Arguments agent_init {A}.
Arguments agent_act {A}.
Arguments agent_step {A}.

(** ** Observable events *)

Inductive message : Type :=
| Progress (i_episode n_episodes : nat) (running_mean eps : Q)
| Solved (i_episode : nat) (running_mean eps : Q).

Inductive info : Type :=
| NumberOfAgents (n : nat)
| NumberOfActions (n : nat)
| StatesLookLike (s : observation)
| StatesHaveLength (n : nat).

(** The figure that [plot_scores] draws. *)
Record figure : Type := {
  raw_curve : list Q;
  ra_curve : list Q;
  rm_curve : list Q;
  marker : option (nat * Q);
  legends : list string
}.

Inductive event : Type :=
| SetSeed (seed : Z)
| EnvOpen (file_name : string) (no_graphics : bool)
| EnvReset
| EnvStep (a : action)
| EnvClose
| Print (i : info)
| SetPostfix (avg_score eps : Q)
| TqdmWrite (m : message)
| Mkdir (path : string)
| TorchSave (path : string)
| SaveFig (path : string) (fig : figure).

(** The file system and the serialisers. *)
Record Host (A F : Type) : Type := {
  is_dir : string -> F -> bool;
  mkdir : string -> F -> outcome unit * F;
  torch_save : A -> string -> F -> outcome unit * F;
  savefig : figure -> string -> F -> outcome unit * F
}.
Arguments is_dir {A F}.
Arguments mkdir {A F}.
Arguments torch_save {A F}.
Arguments savefig {A F}.

(** ** The monad *)

Record world (E A F : Type) : Type := {
  env_st : E;
  agent_st : A;
  fs_st : F;
  trace : list event
}.
Arguments env_st {E A F}.
Arguments agent_st {E A F}.
Arguments fs_st {E A F}.
Arguments trace {E A F}.

Definition M (E A F X : Type) : Type := world E A F -> outcome X * world E A F.

Definition ret {E A F X} (x : X) : M E A F X := fun w => (Returns x, w).

Definition bind {E A F X Y} (m : M E A F X) (k : X -> M E A F Y) : M E A F Y :=
  fun w =>
    match m w with
    | (Returns x, w') => k x w'
    | (Raises e, w') => (Raises e, w')
    end.

Notation "x <- m ;; k" := (bind m (fun x => k))
  (at level 61, m at next level, right associativity).
Notation "m ;;; k" := (bind m (fun _ => k))
  (at level 61, right associativity).

Definition emit {E A F} (e : event) : M E A F unit :=
  fun w => (Returns tt,
            {| env_st := env_st w; agent_st := agent_st w; fs_st := fs_st w;
               trace := trace w ++ [e] |}).

Definition on_env {E A F X} (f : E -> outcome X * E) : M E A F X :=
  fun w => let (r, s) := f (env_st w) in
           (r, {| env_st := s; agent_st := agent_st w; fs_st := fs_st w;
                  trace := trace w |}).

Definition on_agent {E A F X} (f : A -> outcome X * A) : M E A F X :=
  fun w => let (r, s) := f (agent_st w) in
           (r, {| env_st := env_st w; agent_st := s; fs_st := fs_st w;
                  trace := trace w |}).

Definition on_fs {E A F X} (f : F -> outcome X * F) : M E A F X :=
  fun w => let (r, s) := f (fs_st w) in
           (r, {| env_st := env_st w; agent_st := agent_st w; fs_st := s;
                  trace := trace w |}).

Definition when {E A F} (b : bool) (m : M E A F unit) : M E A F unit :=
  if b then m else ret tt.

(** ** [train_agent] *)

(** The local variables of the episode loop. *)
Record loop_state : Type := {
  scores : list Q;
  scores_window : list Q;
  eps : Q;
  success : bool
}.

Section Training.

Context {E A F : Type}.
Variable env : Env E.
Variable agent : AgentOps A.

Variables (n_episodes max_t : nat) (eps_start eps_end eps_decay success_thresh : Q).

(** The time-step loop of one episode. *)
Fixpoint time_steps (fuel : nat) (epsilon : Q) (state : observation) (score : Q)
  : M E A F Q :=
  match fuel with
  | O => ret score
  | S fuel' =>
      a <- on_agent (agent_act agent state epsilon) ;;
      emit (EnvStep a) ;;;
      env_info <- on_env (env_step env a) ;;
      let next_state := vector_observation env_info in
      let r := reward env_info in
      let done := local_done env_info in
      on_agent (agent_step agent state a r next_state done) ;;;
      let score := score + r in
      if done then ret score else time_steps fuel' epsilon next_state score
  end.

(** One iteration of the episode loop. *)
Definition episode (i_episode : nat) (st : loop_state) : M E A F loop_state :=
  emit EnvReset ;;;
  env_info <- on_env (env_reset env) ;;
  let state := vector_observation env_info in
  score <- time_steps max_t (eps st) state 0 ;;
  let window := deque_append 100 score (scores_window st) in
  let history := scores st ++ [score] in
  let epsilon := py_max eps_end (eps_decay * eps st) in
  let running_mean := np_mean window in
  emit (SetPostfix running_mean epsilon) ;;;
  when (i_episode mod 100 =? 0)%nat
    (emit (TqdmWrite (Progress i_episode n_episodes running_mean epsilon))) ;;;
  if negb (success st) && Qle_bool success_thresh running_mean
  then
    emit (TqdmWrite (Solved i_episode running_mean epsilon)) ;;;
    ret {| scores := history; scores_window := window; eps := epsilon;
           success := true |}
  else
    ret {| scores := history; scores_window := window; eps := epsilon;
           success := success st |}.

(** [count] iterations of the episode loop, the first numbered [i_episode]. *)
Fixpoint episode_loop (count i_episode : nat) (st : loop_state) : M E A F loop_state :=
  match count with
  | O => ret st
  | S count' => st' <- episode i_episode st ;; episode_loop count' (S i_episode) st'
  end.

Definition initial_state : loop_state :=
  {| scores := []; scores_window := []; eps := eps_start; success := false |}.

Definition train_agent : M E A F (list Q) :=
  st <- episode_loop n_episodes 1 initial_state ;;
  ret (scores st).

End Training.

(** Defaults of [train_agent]'s keyword arguments. *)
Definition default_max_t : nat := 1000.
Definition default_success_thresh : Q := 13.

(** ** [plot_scores] *)

(** The variables of the loop over episode indices. *)
Record plot_state : Type := {
  ra_scores : list Q;
  rm_scores : list Q;
  success_xy : option (nat * Q);
  plot_success : bool
}.

Section Plot.

Variables (all_scores : list Q) (running_window_size : nat) (success_thresh : Q).

(** [scores[max(0, idx - running_window_size + 1): idx + 1]]; on naturals
    the truncated subtraction is the [max(0, _)]. *)
Definition trailing (idx : nat) : list Q :=
  slice all_scores (idx + 1 - running_window_size) (idx + 1).

Definition plot_step (st : plot_state) (idx : nat) : plot_state :=
  let ra_score := np_mean (trailing idx) in
  let ra := ra_scores st ++ [ra_score] in
  let rm := rm_scores st ++ [np_median (trailing idx)] in
  if negb (plot_success st) && Qlt_bool success_thresh ra_score
  then {| ra_scores := ra; rm_scores := rm;
          success_xy := Some ((idx + 1)%nat, ra_score); plot_success := true |}
  else {| ra_scores := ra; rm_scores := rm;
          success_xy := success_xy st; plot_success := plot_success st |}.

Definition plot_init : plot_state :=
  {| ra_scores := []; rm_scores := []; success_xy := None; plot_success := false |}.

Definition plot_loop : plot_state :=
  fold_left plot_step (seq 0 (length all_scores)) plot_init.

(** [success_x and success_y] *)
Definition marked (st : plot_state) : bool :=
  match success_xy st with
  | Some (success_x, success_y) => truthy_int success_x && truthy_float success_y
  | None => false
  end.

Definition plot_scores : figure :=
  let st := plot_loop in
  {| raw_curve := all_scores;
     ra_curve := ra_scores st;
     rm_curve := rm_scores st;
     marker := if marked st then success_xy st else None;
     legends := ["Raw score"; "Running average score"; "Running median score"]%string
                ++ (if marked st then ["Success episode"%string] else []) |}.

End Plot.

(** ** [main] *)

(** The parsed command line. *)
Record arguments : Type := {
  no_graphics : bool;
  env_path : string;
  output : string;
  success_threshold : Q;
  lin_feats : nat;
  nb_hidden : nat;
  bn : bool;
  dropout_prob : Q;
  device : option string;
  deterministic : bool;
  batch_size : nat;
  buffer_size : Q;
  lr : Q;
  episodes : nat;
  gamma : Q;
  tau : Q;
  update_freq : nat;
  eps_start : Q;
  eps_end : Q;
  eps_decay : Q
}.

(** The defaults declared to [argparse]. *)
Definition default_arguments : arguments :=
  {| no_graphics := false;
     env_path := "./Banana_Linux/Banana.x86_64";
     output := "./outputs";
     success_threshold := 13;
     lin_feats := 64;
     nb_hidden := 1;
     bn := false;
     dropout_prob := 0;
     device := None;
     deterministic := false;
     batch_size := 64;
     buffer_size := 100000;
     lr := 5 # 10000;
     episodes := 500;
     gamma := 99 # 100;
     tau := 1 # 1000;
     update_freq := 4;
     eps_start := 1;
     eps_end := 2 # 100;
     eps_decay := 98 # 100 |}.

(** [Path(folder).joinpath(name)], spelled with a separator.  ([pathlib] also
    normalises the spelling, dropping a leading [./]; for a non-empty folder
    both spellings name the same file, and nothing below depends on the
    spelling.) *)
Definition joinpath (folder name : string) : string := (folder ++ "/" ++ name)%string.

Section Main.

Context {E A F : Type}.
Variable env : Env E.
Variable agent : AgentOps A.
Variable host : Host A F.

(** Everything [main] does before it closes the environment. *)
Definition main_until_saved (args : arguments) : M E A F (list Q) :=
  when (deterministic args) (emit (SetSeed 42)) ;;;
  emit (EnvOpen (env_path args) (no_graphics args)) ;;;
  on_env (env_open env (env_path args) (no_graphics args)) ;;;
  emit EnvReset ;;;
  env_info <- on_env (env_reset env) ;;
  emit (Print (NumberOfAgents (agents env_info))) ;;;
  action_size <- on_env (fun e => (Returns (vector_action_space_size env e), e)) ;;
  emit (Print (NumberOfActions action_size)) ;;;
  let state := vector_observation env_info in
  emit (Print (StatesLookLike state)) ;;;
  let state_size := length state in
  emit (Print (StatesHaveLength state_size)) ;;;
  let hidden := repeat (lin_feats args) (1 + nb_hidden args) in
  on_agent (agent_init agent
              {| cfg_state_size := state_size;
                 cfg_action_size := action_size;
                 cfg_train := true;
                 cfg_lin_feats := hidden;
                 cfg_bn := bn args;
                 cfg_dropout_prob := dropout_prob args;
                 cfg_buffer_size := py_int (buffer_size args);
                 cfg_batch_size := batch_size args;
                 cfg_lr := lr args;
                 cfg_gamma := gamma args;
                 cfg_tau := tau args;
                 cfg_update_freq := update_freq args;
                 cfg_device := device args |}) ;;;
  all_scores <- train_agent env agent (episodes args) default_max_t
                  (eps_start args) (eps_end args) (eps_decay args)
                  default_success_thresh ;;
  let output_folder := output args in
  exists_already <- on_fs (fun f => (Returns (is_dir host output_folder f), f)) ;;
  when (negb exists_already)
    (emit (Mkdir output_folder) ;;; on_fs (mkdir host output_folder)) ;;;
  emit (TorchSave (joinpath output_folder "model.pt")) ;;;
  (fun w => on_fs (torch_save host (agent_st w) (joinpath output_folder "model.pt")) w) ;;;
  ret all_scores.

Definition main (args : arguments) : M E A F unit :=
  all_scores <- main_until_saved args ;;
  emit EnvClose ;;;
  on_env (env_close env) ;;;
  let fig := plot_scores all_scores 100 (success_threshold args) in
  emit (SaveFig (joinpath (output args) "training_scores.png") fig) ;;;
  on_fs (savefig host fig (joinpath (output args) "training_scores.png")).

End Main.

(** ** Test collaborators *)

Module Stub.

(** A 3-action, 4-dimension environment whose every step yields reward [r]
    and ends the episode. *)
Definition info_of (r : Q) (done : bool) : brain_info :=
  {| agents := 1; vector_observation := [0; 0; 0; 0]; reward := r;
     local_done := done |}.

Definition env (r : Q) : Env unit :=
  {| env_open := fun _ _ e => (Returns tt, e);
     vector_action_space_size := fun _ => 3%nat;
     env_reset := fun e => (Returns (info_of 0 false), e);
     env_step := fun _ e => (Returns (info_of r true), e);
     env_close := fun e => (Returns tt, e) |}.

(** The same environment, except that the simulator dies on the first
    step. *)
Definition crashing_env : Env unit :=
  {| env_open := fun _ _ e => (Returns tt, e);
     vector_action_space_size := fun _ => 3%nat;
     env_reset := fun e => (Returns (info_of 0 false), e);
     env_step := fun _ e => (Raises (Exception "UnityEnvironment worker closed"), e);
     env_close := fun e => (Returns tt, e) |}.

(** An environment that replays a fixed list of episode returns, one
    single-step episode each (and [0] once the list is exhausted). *)
Definition replay_env : Env (list Q) :=
  {| env_open := fun _ _ e => (Returns tt, e);
     vector_action_space_size := fun _ => 3%nat;
     env_reset := fun e => (Returns (info_of 0 false), e);
     env_step := fun _ e => (Returns (info_of (hd 0 e) true), tl e);
     env_close := fun e => (Returns tt, e) |}.

(** An agent that always picks action 0 and learns nothing. *)
Definition agent : AgentOps unit :=
  {| agent_init := fun _ a => (Returns tt, a);
     agent_act := fun _ _ a => (Returns 0%Z, a);
     agent_step := fun _ _ _ _ _ a => (Returns tt, a) |}.

(** A file system that records the directories and files written. *)
Definition host : Host unit (list string) :=
  {| is_dir := fun p f => existsb (String.eqb p) f;
     mkdir := fun p f => (Returns tt, p :: f);
     torch_save := fun _ p f => (Returns tt, p :: f);
     savefig := fun _ p f => (Returns tt, p :: f) |}.

Definition start {E} (e : E) : world E unit (list string) :=
  {| env_st := e; agent_st := tt; fs_st := []; trace := [] |}.

End Stub.

(** ** Events of interest in a trace *)

Definition is_solved (e : event) : bool :=
  match e with TqdmWrite (Solved _ _ _) => true | _ => false end.

Definition is_reset (e : event) : bool :=
  match e with EnvReset => true | _ => false end.

Definition is_close (e : event) : bool :=
  match e with EnvClose => true | _ => false end.

Definition is_postfix (e : event) : bool :=
  match e with SetPostfix _ _ => true | _ => false end.

Definition count (p : event -> bool) (tr : list event) : nat :=
  length (filter p tr).

(** The episode numbers announced as solved, in order. *)
Definition solved_at (tr : list event) : list nat :=
  flat_map (fun e => match e with TqdmWrite (Solved i _ _) => [i] | _ => [] end) tr.

(** The exploration rates shown on the progress bar, in order. *)
Definition shown_eps (tr : list event) : list Q :=
  flat_map (fun e => match e with SetPostfix _ e => [e] | _ => [] end) tr.

(** ** Reasoning about monadic code *)

Lemma bind_returns {E A F X Y} (m : M E A F X) (k : X -> M E A F Y) w y w' :
  bind m k w = (Returns y, w') ->
  exists x w1, m w = (Returns x, w1) /\ k x w1 = (Returns y, w').
Proof.
  unfold bind. destruct (m w) as [[x | e] w1]; intros H.
  - now exists x, w1.
  - discriminate.
Qed.

Lemma bind_step {E A F X Y} (m : M E A F X) (k : X -> M E A F Y) w x w1 :
  m w = (Returns x, w1) -> bind m k w = k x w1.
Proof. unfold bind. now intros ->. Qed.

Lemma bind_raises {E A F X Y} (m : M E A F X) (k : X -> M E A F Y) w e w1 :
  m w = (Raises e, w1) -> bind m k w = (Raises e, w1).
Proof. unfold bind. now intros ->. Qed.

Lemma bind_assoc {E A F X Y Z} (m : M E A F X) (k : X -> M E A F Y)
      (h : Y -> M E A F Z) w :
  bind (bind m k) h w = bind m (fun x => bind (k x) h) w.
Proof. unfold bind. destruct (m w) as [[x | e] w1]; reflexivity. Qed.

Lemma bind_ext {E A F X Y} (m : M E A F X) (k k' : X -> M E A F Y) w :
  (forall x w1, k x w1 = k' x w1) -> bind m k w = bind m k' w.
Proof. intros H. unfold bind. destruct (m w) as [[x | e] w1]; [apply H | reflexivity]. Qed.

Lemma emit_trace {E A F} (e : event) (w : world E A F) u w' :
  emit e w = (Returns u, w') ->
  trace w' = trace w ++ [e] /\ env_st w' = env_st w /\
  agent_st w' = agent_st w /\ fs_st w' = fs_st w.
Proof. unfold emit. intros H. inversion H. now subst. Qed.

Lemma on_env_trace {E A F X} (f : E -> outcome X * E) (w : world E A F) r w' :
  on_env f w = (r, w') -> trace w' = trace w.
Proof. unfold on_env. destruct (f (env_st w)). intros H. inversion H. now subst. Qed.

Lemma on_agent_trace {E A F X} (f : A -> outcome X * A) (w : world E A F) r w' :
  on_agent f w = (r, w') -> trace w' = trace w.
Proof. unfold on_agent. destruct (f (agent_st w)). intros H. inversion H. now subst. Qed.

Lemma on_fs_trace {E A F X} (f : F -> outcome X * F) (w : world E A F) r w' :
  on_fs f w = (r, w') -> trace w' = trace w.
Proof. unfold on_fs. destruct (f (fs_st w)). intros H. inversion H. now subst. Qed.

(** Splits a hypothesis [bind m k w = (Returns _, _)] into its two halves. *)
Ltac bind_inv H :=
  let x := fresh "x" in
  let w1 := fresh "w" in
  let H1 := fresh "H" in
  apply bind_returns in H; destruct H as (x & w1 & H1 & H).

Lemma count_app p l1 l2 : count p (l1 ++ l2) = (count p l1 + count p l2)%nat.
Proof. unfold count. now rewrite filter_app, length_app. Qed.

Lemma solved_at_app l1 l2 : solved_at (l1 ++ l2) = solved_at l1 ++ solved_at l2.
Proof. apply flat_map_app. Qed.

Lemma shown_eps_app l1 l2 : shown_eps (l1 ++ l2) = shown_eps l1 ++ shown_eps l2.
Proof. apply flat_map_app. Qed.

(** ** Facts about the numeric helpers *)

Lemma Qlt_bool_iff a b : Qlt_bool a b = true <-> a < b.
Proof.
  unfold Qlt_bool. rewrite negb_true_iff.
  split; intros H.
  - apply Qnot_le_lt. intros Hle. apply Qle_bool_iff in Hle. congruence.
  - destruct (Qle_bool b a) eqn:Hb; [|reflexivity].
    apply Qle_bool_iff in Hb. exfalso. now apply (Qlt_not_le a b).
Qed.

Lemma py_max_lower a b : a <= py_max a b.
Proof.
  unfold py_max. destruct (Qlt_bool a b) eqn:H.
  - apply Qlt_le_weak. now apply Qlt_bool_iff.
  - apply Qle_refl.
Qed.

Lemma py_max_upper a b c : a <= c -> b <= c -> py_max a b <= c.
Proof. unfold py_max. now destruct (Qlt_bool a b). Qed.

Lemma deque_append_length maxlen x d :
  (length d <= maxlen)%nat -> (length (deque_append maxlen x d) <= maxlen)%nat.
Proof.
  intros H. unfold deque_append.
  destruct (Nat.ltb_spec maxlen (length (d ++ [x]))) as [Hlt | Hge]; [|exact Hge].
  rewrite length_app in Hlt. simpl in Hlt.
  destruct d as [| y d]; simpl in *.
  - lia.
  - rewrite length_app. simpl. lia.
Qed.

Lemma deque_append_room maxlen x d :
  (length d < maxlen)%nat -> deque_append maxlen x d = d ++ [x].
Proof.
  intros H. unfold deque_append.
  destruct (Nat.ltb_spec maxlen (length (d ++ [x]))) as [Hlt | Hge]; [|reflexivity].
  rewrite length_app in Hlt. simpl in Hlt. lia.
Qed.

Lemma deque_append_full maxlen x oldest d :
  length (oldest :: d) = maxlen ->
  deque_append maxlen x (oldest :: d) = d ++ [x].
Proof.
  intros H. unfold deque_append.
  destruct (Nat.ltb_spec maxlen (length ((oldest :: d) ++ [x]))) as [Hlt | Hge].
  - reflexivity.
  - rewrite length_app in Hge. simpl in *. lia.
Qed.

Lemma window_nonempty x d : deque_append 100 x d <> [].
Proof.
  unfold deque_append.
  destruct (Nat.ltb_spec 100 (length (d ++ [x]))) as [Hlt | Hge].
  - intros H. apply (f_equal (@length Q)) in H.
    destruct (d ++ [x]); simpl in *; [lia |]. subst. simpl in Hlt. lia.
  - now destruct d.
Qed.

Lemma slice_nonempty (l : list Q) (running_window_size idx : nat) :
  (0 < running_window_size)%nat -> (idx < length l)%nat ->
  trailing l running_window_size idx <> [].
Proof.
  intros Hw Hidx H. apply (f_equal (@length Q)) in H.
  unfold trailing, slice in H. rewrite length_firstn, length_skipn in H.
  simpl in H. lia.
Qed.

(** ** One episode *)

Definition is_step (e : event) : bool :=
  match e with EnvStep _ => true | _ => false end.

Section LoopFacts.

Context {E A F : Type}.
Variable env : Env E.
Variable agent : AgentOps A.
Variables (n_episodes max_t : nat) (eps_start eps_end eps_decay success_thresh : Q).

(** The loop variables once an episode that earned [score] is over. *)
Definition after_episode (score : Q) (st : loop_state) : loop_state :=
  let window := deque_append 100 score (scores_window st) in
  {| scores := scores st ++ [score];
     scores_window := window;
     eps := py_max eps_end (eps_decay * eps st);
     success := success st || Qle_bool success_thresh (np_mean window) |}.

(** What the end of that episode shows on the console. *)
Definition report (i_episode : nat) (score : Q) (st : loop_state) : list event :=
  let st' := after_episode score st in
  let running_mean := np_mean (scores_window st') in
  [SetPostfix running_mean (eps st')]
  ++ (if (i_episode mod 100 =? 0)%nat
      then [TqdmWrite (Progress i_episode n_episodes running_mean (eps st'))]
      else [])
  ++ (if negb (success st) && Qle_bool success_thresh running_mean
      then [TqdmWrite (Solved i_episode running_mean (eps st'))]
      else []).

Definition env_never_raises : Prop :=
  (forall e, exists b e', env_reset env e = (Returns b, e')) /\
  (forall a e, exists b e', env_step env a e = (Returns b, e')).

Definition agent_never_raises : Prop :=
  (forall s q a, exists x a', agent_act agent s q a = (Returns x, a')) /\
  (forall s x r s' d a, exists u a', agent_step agent s x r s' d a = (Returns u, a')).

(** [score] is what some run of the time-step loop, started from score 0,
    has returned. *)
Definition played (score : Q) : Prop :=
  exists epsilon state (w1 w2 : world E A F),
    time_steps env agent max_t epsilon state 0 w1 = (Returns score, w2).

Lemma time_steps_trace fuel :
  forall epsilon state score (w : world E A F) total w',
    time_steps env agent fuel epsilon state score w = (Returns total, w') ->
    exists steps, trace w' = trace w ++ steps /\ forallb is_step steps = true.
Proof.
  induction fuel as [| fuel IH]; intros epsilon state score w total w' H; simpl in H.
  - inversion H; subst. exists []. now rewrite app_nil_r.
  - bind_inv H. bind_inv H. bind_inv H. bind_inv H.
    apply on_agent_trace in H0, H3. apply on_env_trace in H2.
    apply emit_trace in H1. destruct H1 as (H1 & _).
    destruct (local_done x1).
    + inversion H; subst. exists [EnvStep x]. split; [congruence | reflexivity].
    + apply IH in H. destruct H as (steps & Htr & Hall).
      exists (EnvStep x :: steps). split.
      * rewrite Htr, H3, H2, H1, H0, <- app_assoc. reflexivity.
      * exact Hall.
Qed.

Lemma episode_returns i_episode st (w : world E A F) st' w' :
  episode env agent n_episodes max_t eps_end eps_decay success_thresh i_episode st w
  = (Returns st', w') ->
  exists score steps,
    st' = after_episode score st /\
    trace w' = trace w ++ [EnvReset] ++ steps ++ report i_episode score st /\
    forallb is_step steps = true /\
    played score.
Proof.
  unfold episode. intros H.
  bind_inv H. bind_inv H. bind_inv H. bind_inv H. bind_inv H.
  apply emit_trace in H0. destruct H0 as (H0 & _).
  apply on_env_trace in H1.
  assert (Hplayed : played x1) by (now exists (eps st), (vector_observation x0), w1, w2).
  apply time_steps_trace in H2. destruct H2 as (steps & H2 & Hall).
  apply emit_trace in H3. destruct H3 as (H3 & _).
  exists x1, steps. unfold report, after_episode. cbn [scores_window eps success].
  assert (Hw : trace w4 = trace w3 ++
            (if (i_episode mod 100 =? 0)%nat
             then [TqdmWrite (Progress i_episode n_episodes
                     (np_mean (deque_append 100 x1 (scores_window st)))
                     (py_max eps_end (eps_decay * eps st)))]
             else [])).
  { unfold when in H4. destruct (i_episode mod 100 =? 0)%nat.
    - apply emit_trace in H4. tauto.
    - inversion H4. now rewrite app_nil_r. }
  rewrite H0 in H1. rewrite H1 in H2. rewrite H2 in H3. rewrite H3 in Hw.
  destruct (success st); cbn [negb andb orb] in *.
  - inversion H; subst. repeat split; [| exact Hall | exact Hplayed].
    rewrite Hw, <- !app_assoc, app_nil_r. reflexivity.
  - destruct (Qle_bool success_thresh (np_mean (deque_append 100 x1 (scores_window st)))).
    + bind_inv H. apply emit_trace in H5. destruct H5 as (H5 & _).
      inversion H; subst. repeat split; [| exact Hall | exact Hplayed].
      rewrite H5, Hw, <- !app_assoc. reflexivity.
    + inversion H; subst. repeat split; [| exact Hall | exact Hplayed].
      rewrite Hw, <- !app_assoc, app_nil_r. reflexivity.
Qed.

Lemma time_steps_total :
  env_never_raises -> agent_never_raises ->
  forall fuel epsilon state score (w : world E A F),
  exists total w', time_steps env agent fuel epsilon state score w = (Returns total, w').
Proof.
  intros [_ Hstep] [Hact Hlearn] fuel.
  induction fuel as [| fuel IH]; intros epsilon state score w; simpl.
  - now exists score, w.
  - destruct (Hact state epsilon (agent_st w)) as (a & s1 & Ha).
    erewrite bind_step by (unfold on_agent; rewrite Ha; reflexivity).
    erewrite bind_step by reflexivity.
    cbn [env_st agent_st fs_st trace].
    destruct (Hstep a (env_st w)) as (b & e1 & Hb).
    erewrite bind_step by (unfold on_env; cbn [env_st]; rewrite Hb; reflexivity).
    cbn [env_st agent_st fs_st trace].
    destruct (Hlearn state a (reward b) (vector_observation b) (local_done b) s1)
      as (u & s2 & Hu).
    erewrite bind_step by (unfold on_agent; cbn [agent_st]; rewrite Hu; reflexivity).
    destruct (local_done b).
    + eexists _, _. reflexivity.
    + apply IH.
Qed.

Lemma episode_total :
  env_never_raises -> agent_never_raises ->
  forall i_episode st (w : world E A F),
  exists st' w',
    episode env agent n_episodes max_t eps_end eps_decay success_thresh i_episode st w
    = (Returns st', w').
Proof.
  intros Henv Hagent i_episode st w. unfold episode.
  erewrite bind_step by reflexivity.
  destruct Henv as [Hreset Hstep].
  destruct (Hreset (env_st w)) as (b & e1 & Hb).
  erewrite bind_step by (unfold on_env; cbn [env_st]; rewrite Hb; reflexivity).
  edestruct (time_steps_total (conj Hreset Hstep) Hagent) as (total & w1 & Ht).
  erewrite bind_step by exact Ht.
  erewrite bind_step by reflexivity.
  unfold when.
  destruct (i_episode mod 100 =? 0)%nat;
    (erewrite bind_step by reflexivity);
    destruct (negb (success st) && Qle_bool success_thresh _);
    try (erewrite bind_step by reflexivity); eexists _, _; reflexivity.
Qed.

End LoopFacts.

(** ** The episode loop *)

Section RunFacts.

Context {E A F : Type}.
Variable env : Env E.
Variable agent : AgentOps A.
Variables (n_episodes max_t : nat) (eps_start eps_end eps_decay success_thresh : Q).

Let episode' := episode (F:=F) env agent n_episodes max_t eps_end eps_decay success_thresh.
Let loop := episode_loop (F:=F) env agent n_episodes max_t eps_end eps_decay success_thresh.
Let next := after_episode eps_end eps_decay success_thresh.

(** The loop variables after a sequence of episodes with the given
    returns. *)
Definition after_episodes (earned : list Q) (st : loop_state) : loop_state :=
  fold_left (fun s score => after_episode eps_end eps_decay success_thresh score s)
            earned st.

(** One application of the exploration-rate update. *)
Definition decay (epsilon : Q) : Q := py_max eps_end (eps_decay * epsilon).

(** The episodes announced as solved while the loop goes through [earned],
    the first of these episodes being numbered [i_episode]. *)
Fixpoint announcements (i_episode : nat) (earned : list Q) (st : loop_state)
  : list nat :=
  match earned with
  | [] => []
  | score :: rest =>
      (if negb (success st)
          && Qle_bool success_thresh (np_mean (scores_window (next score st)))
       then [i_episode] else [])
      ++ announcements (S i_episode) rest (next score st)
  end.

Lemma loop_app k : forall m i st (w : world E A F),
  loop (k + m)%nat i st w = bind (loop k i st) (loop m (i + k)%nat) w.
Proof.
  induction k as [| k IH]; intros m i st w.
  - simpl. unfold bind, ret. now rewrite Nat.add_0_r.
  - change (loop (S k + m)%nat i st w)
      with (bind (episode' i st) (fun st' => loop (k + m)%nat (S i) st') w).
    change (loop (S k) i st)
      with (bind (episode' i st) (fun st' => loop k (S i) st')).
    rewrite bind_assoc. apply bind_ext. intros st1 w1.
    rewrite IH. now rewrite Nat.add_succ_comm.
Qed.

Lemma loop_prefix k m i st (w : world E A F) st' w' :
  loop (k + m)%nat i st w = (Returns st', w') ->
  exists st1 w1, loop k i st w = (Returns st1, w1) /\
                 loop m (i + k)%nat st1 w1 = (Returns st', w').
Proof. rewrite loop_app. apply bind_returns. Qed.

Lemma loop_prefix_le k n i st (w : world E A F) st' w' :
  (k <= n)%nat ->
  loop n i st w = (Returns st', w') ->
  exists st1 w1, loop k i st w = (Returns st1, w1) /\
                 loop (n - k)%nat (i + k)%nat st1 w1 = (Returns st', w').
Proof.
  intros Hk H. apply loop_prefix. now replace (k + (n - k))%nat with n by lia.
Qed.

Lemma loop_last k i st (w : world E A F) st' w' :
  loop (S k) i st w = (Returns st', w') ->
  exists st1 w1, loop k i st w = (Returns st1, w1) /\
                 episode' (i + k)%nat st1 w1 = (Returns st', w').
Proof.
  replace (S k) with (k + 1)%nat by lia. intros H.
  apply loop_prefix in H. destruct H as (st1 & w1 & Hk & H1).
  exists st1, w1. split; [exact Hk |].
  simpl in H1. bind_inv H1. inversion H1; subst. exact H.
Qed.

Lemma solved_at_report i score st :
  solved_at (report n_episodes eps_end eps_decay success_thresh i score st)
  = if negb (success st)
       && Qle_bool success_thresh (np_mean (scores_window (next score st)))
    then [i] else [].
Proof.
  unfold report. rewrite !solved_at_app.
  destruct (i mod 100 =? 0)%nat;
    destruct (negb (success st) && Qle_bool success_thresh _); reflexivity.
Qed.

Lemma solved_at_steps steps : forallb is_step steps = true -> solved_at steps = [].
Proof.
  induction steps as [| e steps IH]; [reflexivity |].
  simpl. intros H. apply andb_prop in H. destruct H as [He Hs].
  destruct e; try discriminate. simpl. now apply IH.
Qed.

Lemma count_steps p steps :
  (forall a, p (EnvStep a) = false) ->
  forallb is_step steps = true -> count p steps = 0%nat.
Proof.
  intros Hp. induction steps as [| e steps IH]; [reflexivity |].
  simpl. intros H. apply andb_prop in H. destruct H as [He Hs].
  destruct e; try discriminate. unfold count in *. simpl. rewrite Hp. now apply IH.
Qed.

Lemma count_report_reset i score st :
  count is_reset (report n_episodes eps_end eps_decay success_thresh i score st) = 0%nat.
Proof.
  unfold report.
  destruct (i mod 100 =? 0)%nat;
    destruct (negb (success st) && Qle_bool success_thresh _); reflexivity.
Qed.

Lemma count_report_postfix i score st :
  count is_postfix (report n_episodes eps_end eps_decay success_thresh i score st) = 1%nat.
Proof.
  unfold report.
  destruct (i mod 100 =? 0)%nat;
    destruct (negb (success st) && Qle_bool success_thresh _); reflexivity.
Qed.

(** What a completed run of [k] iterations has done. *)
Lemma loop_returns k : forall i st (w : world E A F) st' w',
  loop k i st w = (Returns st', w') ->
  exists earned,
    length earned = k /\
    st' = after_episodes earned st /\
    solved_at (trace w') = solved_at (trace w) ++ announcements i earned st /\
    count is_reset (trace w') = (count is_reset (trace w) + k)%nat /\
    count is_postfix (trace w') = (count is_postfix (trace w) + k)%nat /\
    Forall (played env agent max_t (F := F)) earned.
Proof.
  induction k as [| k IH]; intros i st w st' w' H.
  - inversion H; subst. exists []. simpl.
    rewrite app_nil_r, !Nat.add_0_r. repeat split; auto using Forall_nil.
  - simpl in H. bind_inv H.
    apply episode_returns in H0.
    destruct H0 as (score & steps & Hst & Htr & Hsteps & Hplayed).
    apply IH in H. destruct H as (earned & Hlen & Hst' & Hsol & Hres & Hpost & Hall).
    exists (score :: earned). subst x. repeat split; [| | | | | now constructor].
    + simpl. now rewrite Hlen.
    + exact Hst'.
    + rewrite Hsol, Htr. rewrite !solved_at_app, solved_at_report.
      rewrite (solved_at_steps steps Hsteps). simpl. now rewrite <- app_assoc.
    + rewrite Hres, Htr. rewrite !count_app, count_report_reset.
      rewrite (count_steps is_reset steps) by (auto || exact Hsteps).
      unfold count at 2. simpl. lia.
    + rewrite Hpost, Htr. rewrite !count_app, count_report_postfix.
      rewrite (count_steps is_postfix steps) by (auto || exact Hsteps).
      unfold count at 2. simpl. lia.
Qed.

Lemma loop_total :
  env_never_raises env -> agent_never_raises agent ->
  forall k i st (w : world E A F), exists st' w', loop k i st w = (Returns st', w').
Proof.
  intros Henv Hagent k.
  induction k as [| k IH]; intros i st w.
  - now exists st, w.
  - destruct (episode_total env agent n_episodes max_t eps_end eps_decay
                success_thresh Henv Hagent i st w) as (st1 & w1 & H1).
    destruct (IH (S i) st1 w1) as (st' & w' & H').
    exists st', w'. simpl. erewrite bind_step by exact H1. exact H'.
Qed.

(** *** The loop variables as functions of the returns earned *)

Lemma after_episodes_snoc earned score st :
  after_episodes (earned ++ [score]) st = next score (after_episodes earned st).
Proof. unfold after_episodes. now rewrite fold_left_app. Qed.

Lemma scores_after earned : forall st,
  scores (after_episodes earned st) = scores st ++ earned.
Proof.
  induction earned as [| score earned IH]; intros st; simpl.
  - now rewrite app_nil_r.
  - unfold after_episodes in IH. rewrite IH. simpl. now rewrite <- app_assoc.
Qed.

Lemma eps_after earned : forall st,
  eps (after_episodes earned st) = Nat.iter (length earned) decay (eps st).
Proof.
  induction earned as [| score earned IH]; intros st; [reflexivity |].
  change (after_episodes (score :: earned) st)
    with (after_episodes earned (next score st)).
  rewrite IH. simpl length. rewrite Nat.iter_succ_r. reflexivity.
Qed.

Lemma success_after earned : forall st,
  success st = true -> success (after_episodes earned st) = true.
Proof.
  induction earned as [| score earned IH]; intros st H; [exact H |].
  apply IH. simpl. now rewrite H.
Qed.

Lemma window_length_after earned : forall st,
  (length (scores_window st) <= 100)%nat ->
  (length (scores_window (after_episodes earned st)) <= 100)%nat.
Proof.
  induction earned as [| score earned IH]; intros st H; [exact H |].
  apply IH. simpl. now apply deque_append_length.
Qed.

End RunFacts.

(** The episode loop of [train_agent] cut after its first [k] iterations:
    the loop variables at the end of episode [k]. *)
Definition after_k_episodes {E A F} (env : Env E) (agent : AgentOps A)
    (n_episodes max_t : nat) (eps_start eps_end eps_decay success_thresh : Q)
    (k : nat) : M E A F loop_state :=
  episode_loop env agent n_episodes max_t eps_end eps_decay success_thresh
               k 1 (initial_state eps_start).

(** ** The exploration-rate schedule *)

(** The schedule property: at the end of every episode the rate is the
    decayed, floor-clamped rate of the episode before, lies between [eps_end]
    and [eps_start], and is not above the previous one. *)
Definition epsilon_schedule {E A F} (env : Env E) (agent : AgentOps A)
    (n_episodes max_t : nat) (eps_start eps_end eps_decay success_thresh : Q)
    (w : world E A F) : Prop :=
  forall k st w',
    after_k_episodes env agent n_episodes max_t eps_start eps_end eps_decay
                     success_thresh (S k) w = (Returns st, w') ->
    exists st0 w0,
      after_k_episodes env agent n_episodes max_t eps_start eps_end eps_decay
                       success_thresh k w = (Returns st0, w0) /\
      eps st = py_max eps_end (eps_decay * eps st0) /\
      eps_end <= eps st /\ eps st <= eps_start /\
      eps st <= eps st0.

Section EpsilonSchedule.

Variables (eps_start eps_end eps_decay : Q).

Hypothesis floor_nonneg : 0 <= eps_end.
Hypothesis floor_below_start : eps_end <= eps_start.
Hypothesis decay_at_most_one : eps_decay <= 1.

Lemma decay_shrinks epsilon :
  eps_end <= epsilon -> decay eps_end eps_decay epsilon <= epsilon.
Proof.
  intros H. unfold decay. apply py_max_upper; [exact H |].
  rewrite <- (Qmult_1_l epsilon) at 2.
  apply Qmult_le_compat_r; [exact decay_at_most_one |].
  now apply Qle_trans with eps_end.
Qed.

Lemma iterated_decay_bounds k :
  eps_end <= Nat.iter k (decay eps_end eps_decay) eps_start /\
  Nat.iter k (decay eps_end eps_decay) eps_start <= eps_start.
Proof.
  induction k as [| k [IHlo IHhi]]; simpl.
  - split; [exact floor_below_start | apply Qle_refl].
  - split; [apply py_max_lower |].
    apply Qle_trans with (Nat.iter k (decay eps_end eps_decay) eps_start);
      [now apply decay_shrinks | exact IHhi].
Qed.

End EpsilonSchedule.

(** C1 (as amended): at the end of every episode of [train_agent] the
    exploration rate is [max(eps_end, eps_decay * epsilon)] of the rate the
    episode started with (one update per episode) and is at least [eps_end],
    whatever the hyperparameters; when [0 <= eps_end <= eps_start] and
    [eps_decay <= 1] it moreover is at most [eps_start] and not above the
    rate of the episode before. *)
Theorem epsilon_schedule_holds {E A F} (env : Env E) (agent : AgentOps A)
    (n_episodes max_t : nat) (eps_start eps_end eps_decay success_thresh : Q)
    (w : world E A F) :
  (forall k st w',
      after_k_episodes env agent n_episodes max_t eps_start eps_end eps_decay
                       success_thresh (S k) w = (Returns st, w') ->
      exists st0 w0,
        after_k_episodes env agent n_episodes max_t eps_start eps_end eps_decay
                         success_thresh k w = (Returns st0, w0) /\
        eps st = py_max eps_end (eps_decay * eps st0) /\
        eps_end <= eps st) /\
  (0 <= eps_end -> eps_end <= eps_start -> eps_decay <= 1 ->
   epsilon_schedule env agent n_episodes max_t eps_start eps_end eps_decay
                    success_thresh w).
Proof.
  assert (Hupdate : forall k st w',
            after_k_episodes env agent n_episodes max_t eps_start eps_end eps_decay
                             success_thresh (S k) w = (Returns st, w') ->
            exists st0 w0,
              after_k_episodes env agent n_episodes max_t eps_start eps_end eps_decay
                               success_thresh k w = (Returns st0, w0) /\
              eps st0 = Nat.iter k (decay eps_end eps_decay) eps_start /\
              eps st = py_max eps_end (eps_decay * eps st0)).
  { intros k st w' Hrun. unfold after_k_episodes in *.
    apply loop_last in Hrun. destruct Hrun as (st0 & w0 & Hk & Hlast).
    exists st0, w0. split; [exact Hk |].
    apply episode_returns in Hlast.
    destruct Hlast as (score & steps & Hst & _).
    apply loop_returns in Hk. destruct Hk as (earned & Hlen & Hst0 & _).
    split.
    - rewrite Hst0, eps_after, Hlen. reflexivity.
    - now subst st. }
  split.
  - intros k st w' Hrun.
    destruct (Hupdate k st w' Hrun) as (st0 & w0 & Hk & _ & Hstep).
    exists st0, w0. split; [exact Hk |]. split; [exact Hstep |].
    rewrite Hstep. apply py_max_lower.
  - intros Hnonneg Hfloor Hdecay k st w' Hrun.
    destruct (Hupdate k st w' Hrun) as (st0 & w0 & Hk & Heps0 & Hstep).
    exists st0, w0. split; [exact Hk |].
    destruct (iterated_decay_bounds eps_start eps_end eps_decay Hnonneg Hfloor Hdecay k)
      as [Hlo Hhi].
    rewrite <- Heps0 in Hlo, Hhi.
    assert (Hdown : eps st <= eps st0).
    { rewrite Hstep. now apply (decay_shrinks eps_end eps_decay). }
    repeat split.
    + exact Hstep.
    + rewrite Hstep. apply py_max_lower.
    + now apply Qle_trans with (eps st0).
    + exact Hdown.
Qed.

Lemma epsilon_schedule_holds_witness :
  (exists st w',
      after_k_episodes (Stub.env 1) Stub.agent 5 default_max_t 1 (1 # 100) (995 # 1000) 13
                       5 (Stub.start tt) = (Returns st, w') /\
      (1 # 100) <= eps st /\ eps st <= 1) /\
  (exists st w',
      after_k_episodes (Stub.env 1) Stub.agent 5 default_max_t 1 3 2 13
                       2 (Stub.start tt) = (Returns st, w') /\
      3 <= eps st).
Proof.
  split.
  - eexists _, _. split; [vm_compute; reflexivity |].
    destruct (proj2 (epsilon_schedule_holds (Stub.env 1) Stub.agent 5 default_max_t
                       1 (1 # 100) (995 # 1000) 13 (Stub.start tt))
                ltac:(discriminate) ltac:(discriminate) ltac:(discriminate)
                4%nat _ _ ltac:(vm_compute; reflexivity))
      as (st0 & w0 & _ & _ & Hlo & Hhi & _).
    split; assumption.
  - eexists _, _. split; [vm_compute; reflexivity |].
    destruct (proj1 (epsilon_schedule_holds (Stub.env 1) Stub.agent 5 default_max_t
                       1 3 2 13 (Stub.start tt))
                1%nat _ _ ltac:(vm_compute; reflexivity))
      as (st0 & w0 & _ & _ & Hlo).
    exact Hlo.
Defined.

(** C1 (as stated) fails: with [eps_decay = 2] the rate after the first
    episode is [2], above [eps_start = 1]. *)
Lemma epsilon_schedule_fails_when_decay_exceeds_one :
  ~ epsilon_schedule (Stub.env 1) Stub.agent 5 default_max_t 1 (1 # 100) 2 13
                     (Stub.start tt).
Proof.
  intros H.
  destruct (H 0%nat _ _ ltac:(vm_compute; reflexivity))
    as (st0 & w0 & _ & _ & _ & Hhi & _).
  vm_compute in Hhi. now apply Hhi.
Qed.

(** ** The solved flag *)

Section SolvedFlag.

Variables (eps_end eps_decay success_thresh : Q).

Lemma announcements_none earned : forall i st,
  success st = true -> announcements eps_end eps_decay success_thresh i earned st = [].
Proof.
  induction earned as [| score earned IH]; intros i st H; [reflexivity |].
  simpl. rewrite H. simpl. apply IH. simpl. now rewrite H.
Qed.

Lemma announcements_length earned : forall i st,
  (length (announcements eps_end eps_decay success_thresh i earned st)
   + (if success st then 1 else 0)
   = if success (after_episodes eps_end eps_decay success_thresh earned st)
     then 1 else 0)%nat.
Proof.
  induction earned as [| score earned IH]; intros i st; [reflexivity |].
  change (after_episodes eps_end eps_decay success_thresh (score :: earned) st)
    with (after_episodes eps_end eps_decay success_thresh earned
            (after_episode eps_end eps_decay success_thresh score st)).
  rewrite <- (IH (S i)). simpl.
  destruct (success st); simpl; [reflexivity |].
  destruct (Qle_bool success_thresh _); simpl; lia.
Qed.

End SolvedFlag.

(** C2: the flag starts false; an episode that ends with the flag false and
    the window mean at or above the threshold sets it and writes exactly one
    success line (for that episode); an episode that starts with the flag set
    leaves it set and writes none, whatever the window mean; so from the
    episode that sets it to the end of the run the flag stays set and the run
    writes one success line if the flag ends set and none otherwise. *)
Theorem solved_flag_is_one_shot {E A F} (env : Env E) (agent : AgentOps A)
    (n_episodes max_t : nat) (eps_start eps_end eps_decay success_thresh : Q) :
  success (initial_state eps_start) = false /\
  (forall i_episode st (w : world E A F) st' w',
      episode env agent n_episodes max_t eps_end eps_decay success_thresh
              i_episode st w = (Returns st', w') ->
      (success st = false -> success_thresh <= np_mean (scores_window st') ->
       success st' = true /\
       solved_at (trace w') = solved_at (trace w) ++ [i_episode]) /\
      (success st = false -> ~ success_thresh <= np_mean (scores_window st') ->
       success st' = false /\ solved_at (trace w') = solved_at (trace w)) /\
      (success st = true ->
       success st' = true /\ solved_at (trace w') = solved_at (trace w))) /\
  (forall j k (w : world E A F) stj wj stk wk,
      after_k_episodes env agent n_episodes max_t eps_start eps_end eps_decay
                       success_thresh j w = (Returns stj, wj) ->
      after_k_episodes env agent n_episodes max_t eps_start eps_end eps_decay
                       success_thresh (j + k) w = (Returns stk, wk) ->
      success stj = true ->
      success stk = true /\ solved_at (trace wk) = solved_at (trace wj)) /\
  (forall k (w : world E A F) st w',
      after_k_episodes env agent n_episodes max_t eps_start eps_end eps_decay
                       success_thresh k w = (Returns st, w') ->
      length (solved_at (trace w'))
      = (length (solved_at (trace w)) + if success st then 1 else 0)%nat).
Proof.
  split; [reflexivity |]. split; [| split].
  - intros i st w st' w' H.
    apply episode_returns in H. destruct H as (score & steps & Hst & Htr & Hsteps & _).
    assert (Hsol : solved_at (trace w')
                   = solved_at (trace w)
                     ++ (if negb (success st)
                            && Qle_bool success_thresh (np_mean (scores_window st'))
                         then [i] else [])).
    { rewrite Htr, !solved_at_app, solved_at_report, (solved_at_steps steps Hsteps).
      subst st'. reflexivity. }
    assert (Hflag : success st'
                    = success st || Qle_bool success_thresh (np_mean (scores_window st')))
      by now subst st'.
    repeat split.
    + rewrite Hflag, H. now apply Qle_bool_iff.
    + rewrite Hsol, H. apply Qle_bool_iff in H0. now rewrite H0.
    + rewrite Hflag, H. simpl.
      destruct (Qle_bool success_thresh _) eqn:Hc; [| reflexivity].
      apply Qle_bool_iff in Hc. contradiction.
    + rewrite Hsol, H. simpl.
      destruct (Qle_bool success_thresh _) eqn:Hc; [| now rewrite app_nil_r].
      apply Qle_bool_iff in Hc. contradiction.
    + rewrite Hflag, H. reflexivity.
    + rewrite Hsol, H. simpl. now rewrite app_nil_r.
  - intros j k w stj wj stk wk Hj Hjk Hset. unfold after_k_episodes in *.
    apply loop_prefix in Hjk. destruct Hjk as (st1 & w1 & Hj' & Hk).
    rewrite Hj in Hj'. inversion Hj'; subst st1 w1.
    apply loop_returns in Hk. destruct Hk as (earned & _ & Hst & Hsol & _).
    split.
    + rewrite Hst. now apply success_after.
    + rewrite Hsol, announcements_none by exact Hset. now rewrite app_nil_r.
  - intros k w st w' H. unfold after_k_episodes in H.
    apply loop_returns in H. destruct H as (earned & _ & Hst & Hsol & _).
    rewrite Hsol, length_app, Hst.
    rewrite <- (announcements_length eps_end eps_decay success_thresh earned 1
                  (initial_state eps_start)).
    simpl. lia.
Qed.

Lemma solved_flag_is_one_shot_witness :
  exists st1 w1 st5 w5,
    after_k_episodes Stub.replay_env Stub.agent 5 default_max_t 1 (1 # 100) (995 # 1000) 13
                     1 (Stub.start [20; 0; 0; 0; 0]) = (Returns st1, w1) /\
    after_k_episodes Stub.replay_env Stub.agent 5 default_max_t 1 (1 # 100) (995 # 1000) 13
                     5 (Stub.start [20; 0; 0; 0; 0]) = (Returns st5, w5) /\
    ~ 13 <= np_mean (scores_window st5) /\
    success st5 = true /\ solved_at (trace w5) = solved_at (trace w1).
Proof.
  eexists _, _, _, _.
  split; [vm_compute; reflexivity |].
  split; [vm_compute; reflexivity |].
  split; [vm_compute; intros H; now apply H |].
  destruct (solved_flag_is_one_shot Stub.replay_env Stub.agent (F := list string)
              5 default_max_t 1 (1 # 100) (995 # 1000) 13)
    as (_ & _ & Hkeep & _).
  eapply (Hkeep 1%nat 4%nat (Stub.start [20; 0; 0; 0; 0])).
  - vm_compute; reflexivity.
  - vm_compute; reflexivity.
  - reflexivity.
Defined.

(** ** The score history *)

(** Lines 60-80 of an episode: reset the environment and run the time-step
    loop from score 0 with exploration rate [epsilon]; the result is the
    score the episode earns. *)
Definition play_episode {E A F} (env : Env E) (agent : AgentOps A) (max_t : nat)
    (epsilon : Q) : M E A F Q :=
  emit EnvReset ;;;
  env_info <- on_env (env_reset env) ;;
  time_steps env agent max_t epsilon (vector_observation env_info) 0.

(** An episode is [play_episode] followed by the bookkeeping for the score
    it earned. *)
Lemma episode_plays {E A F} (env : Env E) (agent : AgentOps A)
      (n_episodes max_t : nat) (eps_end eps_decay success_thresh : Q)
      i_episode st (w : world E A F) st' w' :
  episode env agent n_episodes max_t eps_end eps_decay success_thresh i_episode st w
  = (Returns st', w') ->
  exists score w_played,
    play_episode env agent max_t (eps st) w = (Returns score, w_played) /\
    st' = after_episode eps_end eps_decay success_thresh score st.
Proof.
  intros H.
  destruct (episode_returns _ _ _ _ _ _ _ _ _ _ _ _ H) as (score & steps & Hst & _).
  unfold episode in H.
  apply bind_returns in H. destruct H as (u0 & w0 & H0 & H).
  apply bind_returns in H. destruct H as (env_info & w1 & H1 & H).
  apply bind_returns in H. destruct H as (score' & w2 & H2 & H).
  assert (Hscore : score' = score).
  { apply bind_returns in H. destruct H as (u3 & w3 & _ & H).
    apply bind_returns in H. destruct H as (u4 & w4 & _ & H).
    assert (Hs : scores st' = scores st ++ [score']).
    { destruct (negb (success st) && Qle_bool success_thresh _).
      - apply bind_returns in H. destruct H as (u5 & w5 & _ & H).
        now inversion H.
      - now inversion H. }
    rewrite Hst in Hs. simpl in Hs. apply app_inj_tail in Hs. now destruct Hs. }
  subst score'. exists score, w2. split; [| exact Hst].
  unfold play_episode.
  rewrite (bind_step _ _ _ _ _ H0), (bind_step _ _ _ _ _ H1). exact H2.
Qed.

(** C4: with collaborators that do not raise, [train_agent] goes through
    exactly [n_episodes] episodes (one environment reset and one progress-bar
    update each) and returns the score history, which has one entry per
    episode in episode order: its first [k] entries are the history at the end
    of episode [k], and entry [k] is the score that playing episode [k + 1]
    (reset, then the time-step loop from score 0 with the rate of that
    episode) earns in the world the first [k] episodes have left.  This holds
    for every threshold, so whether or not the flag gets set. *)
Theorem train_agent_returns_full_history {E A F} (env : Env E) (agent : AgentOps A)
    (n_episodes max_t : nat) (eps_start eps_end eps_decay success_thresh : Q)
    (w : world E A F) :
  env_never_raises env -> agent_never_raises agent ->
  exists all_scores w',
    train_agent env agent n_episodes max_t eps_start eps_end eps_decay success_thresh w
    = (Returns all_scores, w') /\
    length all_scores = n_episodes /\
    count is_reset (trace w') = (count is_reset (trace w) + n_episodes)%nat /\
    count is_postfix (trace w') = (count is_postfix (trace w) + n_episodes)%nat /\
    (forall k, (k <= n_episodes)%nat ->
      exists st wk,
        after_k_episodes env agent n_episodes max_t eps_start eps_end eps_decay
                         success_thresh k w = (Returns st, wk) /\
        scores st = firstn k all_scores) /\
    (forall k, (k < n_episodes)%nat ->
      exists st wk score w_played,
        after_k_episodes env agent n_episodes max_t eps_start eps_end eps_decay
                         success_thresh k w = (Returns st, wk) /\
        play_episode env agent max_t (eps st) wk = (Returns score, w_played) /\
        nth_error all_scores k = Some score).
Proof.
  intros Henv Hagent.
  destruct (loop_total env agent n_episodes max_t eps_end eps_decay success_thresh
              Henv Hagent n_episodes 1 (initial_state eps_start) w) as (st' & w' & Hrun).
  exists (scores st'), w'. split.
  { unfold train_agent. erewrite bind_step by exact Hrun. reflexivity. }
  pose proof Hrun as Hfacts. apply loop_returns in Hfacts.
  destruct Hfacts as (earned & Hlen & Hst & _ & Hres & Hpost & _).
  repeat split; try assumption.
  - rewrite Hst, scores_after. simpl. exact Hlen.
  - intros k Hk. unfold after_k_episodes.
    apply (loop_prefix_le _ _ _ _ _ _ _ k) in Hrun; [| exact Hk].
    destruct Hrun as (st1 & w1 & Hk1 & Hrest).
    exists st1, w1. split; [exact Hk1 |].
    apply loop_returns in Hk1. destruct Hk1 as (earned1 & Hlen1 & Hst1 & _).
    apply loop_returns in Hrest. destruct Hrest as (earned2 & _ & Hst2 & _).
    rewrite Hst2, scores_after.
    assert (Hl : length (scores st1) = k).
    { rewrite Hst1, scores_after. simpl. exact Hlen1. }
    rewrite <- Hl at 1. rewrite firstn_app, Nat.sub_diag, firstn_all. simpl.
    now rewrite app_nil_r.
  - intros k Hk. unfold after_k_episodes.
    apply (loop_prefix_le _ _ _ _ _ _ _ k) in Hrun; [| lia].
    destruct Hrun as (st1 & w1 & Hk1 & Hrest).
    destruct (n_episodes - k)%nat as [| m] eqn:Hm; [lia |].
    simpl in Hrest.
    apply bind_returns in Hrest. destruct Hrest as (st2 & w2 & Hepisode & Hrest).
    apply episode_plays in Hepisode.
    destruct Hepisode as (score & w_played & Hplay & Hst2).
    exists st1, w1, score, w_played. split; [exact Hk1 |]. split; [exact Hplay |].
    apply loop_returns in Hk1. destruct Hk1 as (earned1 & Hlen1 & Hst1 & _).
    apply loop_returns in Hrest. destruct Hrest as (earned2 & _ & Hlast & _).
    assert (Hl : length (scores st1) = k).
    { rewrite Hst1, scores_after. simpl. exact Hlen1. }
    rewrite Hlast, scores_after, Hst2. simpl. rewrite <- app_assoc.
    rewrite nth_error_app2 by lia. rewrite Hl, Nat.sub_diag. reflexivity.
Qed.

Lemma stub_env_never_raises r : env_never_raises (Stub.env r).
Proof. split; intros; eexists _, _; reflexivity. Qed.

Lemma stub_agent_never_raises : agent_never_raises Stub.agent.
Proof. split; intros; eexists _, _; reflexivity. Qed.

Lemma replay_env_never_raises : env_never_raises Stub.replay_env.
Proof. split; intros; eexists _, _; reflexivity. Qed.

Lemma train_agent_returns_full_history_witness :
  exists all_scores w',
    train_agent Stub.replay_env Stub.agent 3 default_max_t 1 (1 # 100) (995 # 1000) 1
                (Stub.start [4; 5; 6]) = (Returns all_scores, w') /\
    length all_scores = 3%nat /\
    nth_error all_scores 1 = Some 5.
Proof.
  destruct (train_agent_returns_full_history Stub.replay_env Stub.agent 3 default_max_t
              1 (1 # 100) (995 # 1000) 1 (Stub.start [4; 5; 6])
              replay_env_never_raises stub_agent_never_raises)
    as (all_scores & w' & Hrun & Hlen & _ & _ & _ & Hentry).
  exists all_scores, w'. split; [exact Hrun |]. split; [exact Hlen |].
  destruct (Hentry 1%nat ltac:(lia)) as (st & wk & score & w_played & Hk & Hplay & Hnth).
  assert (Hk' : after_k_episodes Stub.replay_env Stub.agent 3 default_max_t
                  1 (1 # 100) (995 # 1000) 1 1 (Stub.start [4; 5; 6])
                = (Returns {| scores := [4]; scores_window := [4];
                              eps := 995 # 1000; success := true |},
                   {| env_st := [5; 6]; agent_st := tt; fs_st := [];
                      trace := [EnvReset; EnvStep 0%Z; SetPostfix 4 (995 # 1000);
                                TqdmWrite (Solved 1 4 (995 # 1000))] |}))
    by (vm_compute; reflexivity).
  rewrite Hk' in Hk. inversion Hk; subst st wk. clear Hk Hk'.
  assert (Hplay' : play_episode Stub.replay_env Stub.agent default_max_t (995 # 1000)
                     {| env_st := [5; 6]; agent_st := tt; fs_st := ([] : list string);
                        trace := [EnvReset; EnvStep 0%Z; SetPostfix 4 (995 # 1000);
                                  TqdmWrite (Solved 1 4 (995 # 1000))] |}
                   = (Returns 5,
                      {| env_st := [6]; agent_st := tt; fs_st := [];
                         trace := [EnvReset; EnvStep 0%Z; SetPostfix 4 (995 # 1000);
                                   TqdmWrite (Solved 1 4 (995 # 1000));
                                   EnvReset; EnvStep 0%Z] |}))
    by (vm_compute; reflexivity).
  simpl eps in Hplay. rewrite Hplay' in Hplay. inversion Hplay; subst score.
  exact Hnth.
Defined.

(** ** The score window *)

Lemma window_is_recent_scores x (l : list Q) :
  deque_append 100 x (skipn (length l - 100) l)
  = skipn (length (l ++ [x]) - 100) (l ++ [x]).
Proof.
  rewrite length_app. simpl length.
  destruct (Nat.lt_ge_cases (length l) 100) as [Hlt | Hge].
  - replace (length l - 100)%nat with 0%nat by lia.
    replace (length l + 1 - 100)%nat with 0%nat by lia.
    simpl. now apply deque_append_room.
  - replace (length l + 1 - 100)%nat with (1 + (length l - 100))%nat by lia.
    rewrite <- skipn_skipn, skipn_app.
    replace (length l - 100 - length l)%nat with 0%nat by lia.
    assert (Hlen : length (skipn (length l - 100) l) = 100%nat)
      by (rewrite length_skipn; lia).
    destruct (skipn (length l - 100) l) as [| oldest rest]; [discriminate |].
    rewrite (deque_append_full 100 x oldest rest Hlen). reflexivity.
Qed.

Lemma window_after eps_end eps_decay success_thresh earned : forall st,
  scores_window st = skipn (length (scores st) - 100) (scores st) ->
  let st' := after_episodes eps_end eps_decay success_thresh earned st in
  scores_window st' = skipn (length (scores st') - 100) (scores st').
Proof.
  induction earned as [| score earned IH]; intros st H; [exact H |].
  apply IH. simpl. rewrite H. apply window_is_recent_scores.
Qed.

(** C5: at the end of every episode the window holds at most 100 entries,
    namely the most recent ones of the score history; each episode appends
    its score with [deque_append], which on a full window discards the oldest
    entry. *)
Theorem window_bounded_oldest_dropped {E A F} (env : Env E) (agent : AgentOps A)
    (n_episodes max_t : nat) (eps_start eps_end eps_decay success_thresh : Q) :
  (forall k (w : world E A F) st w',
      after_k_episodes env agent n_episodes max_t eps_start eps_end eps_decay
                       success_thresh k w = (Returns st, w') ->
      (length (scores_window st) <= 100)%nat /\
      length (scores_window st) = Nat.min k 100 /\
      scores_window st = skipn (k - 100) (scores st)) /\
  (forall i_episode st (w : world E A F) st' w',
      episode env agent n_episodes max_t eps_end eps_decay success_thresh
              i_episode st w = (Returns st', w') ->
      exists score,
        scores st' = scores st ++ [score] /\
        scores_window st' = deque_append 100 score (scores_window st)) /\
  (forall x oldest rest,
      length (oldest :: rest) = 100%nat ->
      deque_append 100 x (oldest :: rest) = rest ++ [x]).
Proof.
  split; [| split].
  - intros k w st w' H. unfold after_k_episodes in H.
    apply loop_returns in H. destruct H as (earned & Hlen & Hst & _).
    assert (Hk : length (scores st) = k).
    { rewrite Hst, scores_after. simpl. exact Hlen. }
    assert (Hw : scores_window st = skipn (k - 100) (scores st)).
    { rewrite <- Hk, Hst. now apply window_after. }
    rewrite Hw, length_skipn, Hk. repeat split; lia.
  - intros i st w st' w' H.
    apply episode_returns in H. destruct H as (score & steps & Hst & _).
    exists score. now subst st'.
  - intros x oldest rest H. now apply deque_append_full.
Qed.

Lemma window_bounded_oldest_dropped_witness :
  exists st w',
    after_k_episodes (Stub.env 1) Stub.agent 150 default_max_t 1 (1 # 100) 1 13
                     150 (Stub.start tt) = (Returns st, w') /\
    length (scores st) = 150%nat /\ length (scores_window st) = 100%nat.
Proof.
  eexists _, _. split; [vm_compute; reflexivity |].
  destruct (window_bounded_oldest_dropped (Stub.env 1) Stub.agent (F := list string)
              150 default_max_t 1 (1 # 100) 1 13) as (Hlen & _ & _).
  destruct (Hlen 150%nat (Stub.start tt) _ _ ltac:(vm_compute; reflexivity))
    as (_ & Hmin & _).
  split; [vm_compute; reflexivity | exact Hmin].
Defined.

(** ** The one-step environment *)

Lemma stub_time_steps {A F} (agent : AgentOps A) (r : Q) fuel epsilon state score
      (w : world unit A F) total w' :
  time_steps (Stub.env r) agent (S fuel) epsilon state score w = (Returns total, w') ->
  total = score + r.
Proof.
  simpl. intros H.
  bind_inv H. bind_inv H. bind_inv H.
  unfold on_env in H2. simpl in H2. inversion H2; subst x1 w2. clear H2.
  bind_inv H. simpl in H. now inversion H.
Qed.

Lemma stub_played {A F} (agent : AgentOps A) (r : Q) max_t score :
  (1 <= max_t)%nat ->
  played (Stub.env r) agent max_t (F := F) score -> score = 0 + r.
Proof.
  intros Hmax (epsilon & state & w1 & w2 & H).
  destruct max_t as [| fuel]; [lia |].
  now apply stub_time_steps in H.
Qed.

Lemma np_mean_single x : np_mean [x] == x.
Proof. unfold np_mean. simpl. field. Qed.

(** C6: against the environment that pays reward 1 and ends every episode
    after one step, [train_agent] with [n_episodes = 5] (and at least one
    time step allowed per episode, as with the default [max_t]) returns
    [[1; 1; 1; 1; 1]] whatever agent it drives, provided the agent does not
    raise; a success line is written (once, for episode 1) exactly when the
    threshold is at most 1. *)
Theorem one_step_environment_run {A F} (agent : AgentOps A)
    (max_t : nat) (eps_start eps_end eps_decay success_thresh : Q)
    (w : world unit A F) :
  agent_never_raises agent -> (1 <= max_t)%nat ->
  exists w',
    train_agent (Stub.env 1) agent 5 max_t eps_start eps_end eps_decay success_thresh w
    = (Returns [1; 1; 1; 1; 1], w') /\
    (success_thresh <= 1 -> solved_at (trace w') = solved_at (trace w) ++ [1%nat]) /\
    (~ success_thresh <= 1 -> solved_at (trace w') = solved_at (trace w)).
Proof.
  intros Hagent Hmax.
  destruct (loop_total (Stub.env 1) agent 5 max_t eps_end eps_decay success_thresh
              (stub_env_never_raises 1) Hagent 5 1 (initial_state eps_start) w)
    as (st' & w' & Hrun).
  exists w'.
  pose proof Hrun as Hfacts. apply loop_returns in Hfacts.
  destruct Hfacts as (earned & Hlen & Hst & Hsol & _ & _ & Hall).
  assert (Hearned : earned = [1; 1; 1; 1; 1]).
  { do 5 (destruct earned as [| ? earned]; [discriminate |]).
    destruct earned; [| discriminate].
    repeat match goal with
           | H : Forall _ (_ :: _) |- _ => inversion H; subst; clear H
           | H : played _ _ _ _ |- _ => apply (stub_played agent 1 max_t _ Hmax) in H
           end.
    subst. reflexivity. }
  subst earned.
  assert (H1 : Qle_bool success_thresh (np_mean [1]) = Qle_bool success_thresh 1)
    by (apply Qleb_comp; reflexivity).
  assert (H2 : Qle_bool success_thresh (np_mean [1; 1]) = Qle_bool success_thresh 1)
    by (apply Qleb_comp; reflexivity).
  assert (H3 : Qle_bool success_thresh (np_mean [1; 1; 1]) = Qle_bool success_thresh 1)
    by (apply Qleb_comp; reflexivity).
  assert (H4 : Qle_bool success_thresh (np_mean [1; 1; 1; 1]) = Qle_bool success_thresh 1)
    by (apply Qleb_comp; reflexivity).
  assert (H5 : Qle_bool success_thresh (np_mean [1; 1; 1; 1; 1])
               = Qle_bool success_thresh 1)
    by (apply Qleb_comp; reflexivity).
  split.
  { unfold train_agent. erewrite bind_step by exact Hrun.
    rewrite Hst, scores_after. reflexivity. }
  assert (Hann : announcements eps_end eps_decay success_thresh 1 [1; 1; 1; 1; 1]
                   (initial_state eps_start)
                 = if Qle_bool success_thresh 1 then [1%nat] else []).
  { cbn -[np_mean Qle_bool]. rewrite H1.
    destruct (Qle_bool success_thresh 1) eqn:Hc; cbn -[np_mean Qle_bool].
    - reflexivity.
    - rewrite H2. cbn -[np_mean Qle_bool]. rewrite H3. cbn -[np_mean Qle_bool].
      rewrite H4. cbn -[np_mean Qle_bool]. rewrite H5. reflexivity. }
  rewrite Hsol, Hann. split; intros Hc.
  - apply Qle_bool_iff in Hc. now rewrite Hc.
  - destruct (Qle_bool success_thresh 1) eqn:Hb; [| now rewrite app_nil_r].
    apply Qle_bool_iff in Hb. contradiction.
Qed.

Lemma one_step_environment_run_witness :
  exists w',
    train_agent (Stub.env 1) Stub.agent 5 default_max_t 1 (1 # 100) (995 # 1000) 13
                (Stub.start tt) = (Returns [1; 1; 1; 1; 1], w') /\
    solved_at (trace w') = [].
Proof.
  destruct (one_step_environment_run Stub.agent default_max_t 1 (1 # 100) (995 # 1000) 13
              (Stub.start tt) stub_agent_never_raises ltac:(unfold default_max_t; lia))
    as (w' & Hrun & _ & Hnone).
  exists w'. split; [exact Hrun |].
  apply Hnone. intros H. vm_compute in H. now apply H.
Defined.

(** ** Success before the window is full *)

(** C9: the mean is taken over the scores actually in the window, so it is
    the first score itself at the end of episode 1; if that score is at or
    above the threshold the flag is set and the success line names
    episode 1. *)
Theorem success_possible_at_first_episode {E A F} (env : Env E) (agent : AgentOps A)
    (n_episodes max_t : nat) (eps_start eps_end eps_decay success_thresh : Q)
    (w : world E A F) st w' score :
  after_k_episodes env agent n_episodes max_t eps_start eps_end eps_decay
                   success_thresh 1 w = (Returns st, w') ->
  scores st = [score] ->
  success_thresh <= score ->
  scores_window st = [score] /\
  np_mean (scores_window st) == score /\
  success st = true /\
  solved_at (trace w') = solved_at (trace w) ++ [1%nat].
Proof.
  intros Hrun Hscore Hthresh. unfold after_k_episodes in Hrun.
  apply loop_returns in Hrun.
  destruct Hrun as (earned & Hlen & Hst & Hsol & _).
  destruct earned as [| s earned]; [discriminate |].
  destruct earned; [| discriminate].
  assert (Hs : s = score).
  { rewrite Hst in Hscore. simpl in Hscore. now inversion Hscore. }
  subst s.
  assert (Hmean : Qle_bool success_thresh (np_mean [score]) = true).
  { apply Qle_bool_iff. now rewrite np_mean_single. }
  rewrite Hsol, Hst. cbn -[np_mean Qle_bool]. rewrite Hmean.
  repeat split. apply np_mean_single.
Qed.

Lemma success_possible_at_first_episode_witness :
  exists st w',
    after_k_episodes (Stub.env 1) Stub.agent 5 default_max_t 1 (1 # 100) (995 # 1000) 1
                     1 (Stub.start tt) = (Returns st, w') /\
    success st = true /\ solved_at (trace w') = [1%nat].
Proof.
  eexists _, _. split; [vm_compute; reflexivity |].
  destruct (success_possible_at_first_episode (Stub.env 1) Stub.agent 5 default_max_t
              1 (1 # 100) (995 # 1000) 1 (Stub.start tt) _ _ 1
              ltac:(vm_compute; reflexivity) ltac:(reflexivity) ltac:(discriminate))
    as (_ & _ & Hflag & Hline).
  split; [exact Hflag | exact Hline].
Defined.

(** ** [main] and the success threshold *)

(** The command line [args] with [--success-threshold t]. *)
Definition with_success_threshold (t : Q) (args : arguments) : arguments :=
  {| no_graphics := no_graphics args; env_path := env_path args;
     output := output args; success_threshold := t;
     lin_feats := lin_feats args; nb_hidden := nb_hidden args; bn := bn args;
     dropout_prob := dropout_prob args; device := device args;
     deterministic := deterministic args; batch_size := batch_size args;
     buffer_size := buffer_size args; lr := lr args; episodes := episodes args;
     gamma := gamma args; tau := tau args; update_freq := update_freq args;
     eps_start := eps_start args; eps_end := eps_end args;
     eps_decay := eps_decay args |}.

(** The command line [args] with [--episodes n]. *)
Definition with_episodes (n : nat) (args : arguments) : arguments :=
  {| no_graphics := no_graphics args; env_path := env_path args;
     output := output args; success_threshold := success_threshold args;
     lin_feats := lin_feats args; nb_hidden := nb_hidden args; bn := bn args;
     dropout_prob := dropout_prob args; device := device args;
     deterministic := deterministic args; batch_size := batch_size args;
     buffer_size := buffer_size args; lr := lr args; episodes := n;
     gamma := gamma args; tau := tau args; update_freq := update_freq args;
     eps_start := eps_start args; eps_end := eps_end args;
     eps_decay := eps_decay args |}.

(** C3: the option exists and defaults to 13, but what [main] does up to and
    including the training run does not depend on it: [train_agent] is called
    without it and compares against its own default 13.  With
    [--success-threshold 1 --episodes 5] against the environment that pays 1
    per episode, every window mean (1) reaches the configured threshold, a
    training run given that threshold announces success at episode 1, and
    [main]'s run announces nothing. *)
Theorem main_ignores_success_threshold :
  success_threshold default_arguments = 13 /\
  (forall E A F (env : Env E) (agent : AgentOps A) (host : Host A F) t args w,
      main_until_saved env agent host (with_success_threshold t args) w
      = main_until_saved env agent host args w) /\
  (let args := with_success_threshold 1 (with_episodes 5 default_arguments) in
   exists w_main w_train,
     main (Stub.env 1) Stub.agent Stub.host args (Stub.start tt) = (Returns tt, w_main) /\
     solved_at (trace w_main) = [] /\
     train_agent (Stub.env 1) Stub.agent (episodes args) default_max_t
                 (eps_start args) (eps_end args) (eps_decay args)
                 (success_threshold args) (Stub.start tt)
     = (Returns [1; 1; 1; 1; 1], w_train) /\
     solved_at (trace w_train) = [1%nat]).
Proof.
  split; [reflexivity |]. split; [reflexivity |].
  eexists _, _.
  split; [vm_compute; reflexivity |].
  split; [vm_compute; reflexivity |].
  split; vm_compute; reflexivity.
Qed.

(** ** The plot marker against the training loop *)

(** C7: on the score sequence [[13]] with threshold 13 the training loop sets
    the flag and announces episode 1 (the window mean 13 is at the threshold),
    while [plot_scores] compares strictly and marks nothing; on [[0]] with
    threshold -1 the loop again announces episode 1 and the plot, which
    detects the crossing, draws no marker because the mean there is 0. *)
Theorem plot_marker_disagrees_with_training :
  (exists st w',
      after_k_episodes Stub.replay_env Stub.agent 1 default_max_t 1 (1 # 100) (995 # 1000)
                       13 1 (Stub.start [13]) = (Returns st, w') /\
      scores st = [13] /\ success st = true /\ solved_at (trace w') = [1%nat]) /\
  marker (plot_scores [13] 100 13) = None /\
  (exists st w',
      after_k_episodes Stub.replay_env Stub.agent 1 default_max_t 1 (1 # 100) (995 # 1000)
                       (-1) 1 (Stub.start [0]) = (Returns st, w') /\
      scores st = [0] /\ success st = true /\ solved_at (trace w') = [1%nat]) /\
  marker (plot_scores [0] 100 (-1)) = None.
Proof.
  split; [eexists _, _; split; [vm_compute; reflexivity | repeat split] |].
  split; [vm_compute; reflexivity |].
  split; [eexists _, _; split; [vm_compute; reflexivity | repeat split] |].
  vm_compute; reflexivity.
Qed.

(** ** Closing the environment *)

(** A computation that never calls [env.close()], whether it returns or
    raises. *)
Definition never_closes {E A F X} (m : M E A F X) : Prop :=
  forall w r w', m w = (r, w') -> count is_close (trace w') = count is_close (trace w).

Lemma never_closes_ret {E A F X} (x : X) : never_closes (ret x : M E A F X).
Proof. intros w r w' H. now inversion H. Qed.

Lemma never_closes_emit {E A F} (e : event) :
  is_close e = false -> never_closes (emit e : M E A F unit).
Proof.
  intros He w r w' H. inversion H; subst. simpl.
  rewrite count_app. unfold count at 2. simpl. rewrite He. simpl. lia.
Qed.

Lemma never_closes_on_env {E A F X} (f : E -> outcome X * E) :
  never_closes (on_env f : M E A F X).
Proof. intros w r w' H. apply on_env_trace in H. now rewrite H. Qed.

Lemma never_closes_on_agent {E A F X} (f : A -> outcome X * A) :
  never_closes (on_agent f : M E A F X).
Proof. intros w r w' H. apply on_agent_trace in H. now rewrite H. Qed.

Lemma never_closes_on_fs {E A F X} (f : F -> outcome X * F) :
  never_closes (on_fs f : M E A F X).
Proof. intros w r w' H. apply on_fs_trace in H. now rewrite H. Qed.

Lemma never_closes_bind {E A F X Y} (m : M E A F X) (k : X -> M E A F Y) :
  never_closes m -> (forall x, never_closes (k x)) -> never_closes (bind m k).
Proof.
  intros Hm Hk w r w' H. unfold bind in H.
  destruct (m w) as [[x | e] w1] eqn:Hmw.
  - apply Hk in H. apply Hm in Hmw. congruence.
  - inversion H; subst. now apply Hm in Hmw.
Qed.

Lemma never_closes_when {E A F} (b : bool) (m : M E A F unit) :
  never_closes m -> never_closes (when b m).
Proof. intros H. destruct b; [exact H | apply never_closes_ret]. Qed.

(** Peels the binds of a computation and discharges its primitive calls. *)
Ltac quiet_with known :=
  repeat first
    [ known
    | apply never_closes_bind; [| intros ? ]
    | apply never_closes_when
    | apply never_closes_emit; reflexivity
    | apply never_closes_ret
    | apply never_closes_on_env
    | apply never_closes_on_agent
    | apply never_closes_on_fs ].

Ltac quiet := quiet_with fail.

Section Quiet.

Context {E A F : Type}.
Variable env : Env E.
Variable agent : AgentOps A.
Variable host : Host A F.

Lemma never_closes_time_steps fuel : forall epsilon state score,
  never_closes (time_steps env agent fuel epsilon state score : M E A F Q).
Proof.
  induction fuel as [| fuel IH]; intros epsilon state score; simpl.
  - apply never_closes_ret.
  - quiet. destruct (local_done _); [apply never_closes_ret | apply IH].
Qed.

Lemma never_closes_episode n_episodes max_t eps_end eps_decay success_thresh i st :
  never_closes (episode env agent n_episodes max_t eps_end eps_decay success_thresh i st
                : M E A F loop_state).
Proof.
  unfold episode. quiet.
  - apply never_closes_time_steps.
  - match goal with |- context [if ?b then _ else _] => destruct b end; quiet.
Qed.

Lemma never_closes_train_agent n_episodes max_t eps_start eps_end eps_decay success_thresh :
  never_closes (train_agent env agent n_episodes max_t eps_start eps_end eps_decay
                            success_thresh : M E A F (list Q)).
Proof.
  unfold train_agent. apply never_closes_bind; [| intros; apply never_closes_ret].
  generalize (initial_state eps_start) as st. generalize 1%nat as i.
  induction n_episodes as [| n IH] at 2; intros i st; simpl.
  - apply never_closes_ret.
  - apply never_closes_bind; [apply never_closes_episode | intros; apply IH].
Qed.

Lemma never_closes_main_until_saved args :
  never_closes (main_until_saved env agent host args).
Proof.
  unfold main_until_saved.
  quiet_with ltac:(apply never_closes_train_agent).
  intros w r w' H. apply on_fs_trace in H. now rewrite H.
Qed.

End Quiet.

(** The property C8 states: whatever way a run of [main] ends, it has called
    [env.close()]. *)
Definition closes_on_every_exit {E A F} (env : Env E) (agent : AgentOps A)
    (host : Host A F) (args : arguments) (w : world E A F) : Prop :=
  forall r w', main env agent host args w = (r, w') -> In EnvClose (trace w').

(** C8 (as stated) fails: when the simulator dies during training, [main]
    ends with the exception and [env.close()] has not been called. *)
Lemma main_leaks_environment_when_training_raises :
  ~ closes_on_every_exit Stub.crashing_env Stub.agent Stub.host default_arguments
                         (Stub.start tt).
Proof.
  intros H.
  specialize (H _ _ ltac:(vm_compute; reflexivity)).
  vm_compute in H.
  repeat (destruct H as [H | H]; [discriminate |]). exact H.
Qed.

(** C8 (as amended): [main] calls [env.close()] exactly when everything
    before it (creating and resetting the environment, building the agent,
    the training run, creating the output folder and saving the model)
    returned; then it is called once, also if the call itself or the plotting
    after it raises.  If any of those earlier steps raises, [main] ends with
    that exception and [env.close()] is not called. *)
Theorem env_closed_iff_model_saved {E A F} (env : Env E) (agent : AgentOps A)
    (host : Host A F) (args : arguments) (w : world E A F) r w' :
  count is_close (trace w) = 0%nat ->
  main env agent host args w = (r, w') ->
  (forall all_scores w1,
      main_until_saved env agent host args w = (Returns all_scores, w1) ->
      count is_close (trace w') = 1%nat) /\
  (forall e w1,
      main_until_saved env agent host args w = (Raises e, w1) ->
      r = Raises e /\ w' = w1 /\ count is_close (trace w') = 0%nat).
Proof.
  intros Hfresh Hmain. unfold main in Hmain. split.
  - intros all_scores w1 Hsaved.
    pose proof (never_closes_main_until_saved env agent host args _ _ _ Hsaved) as Hq.
    rewrite (bind_step _ _ _ _ _ Hsaved) in Hmain.
    erewrite (bind_step (emit EnvClose)) in Hmain by reflexivity.
    assert (Hrest : never_closes
              (on_env (env_close env) ;;;
               emit (SaveFig (joinpath (output args) "training_scores.png")
                       (plot_scores all_scores 100 (success_threshold args))) ;;;
               (on_fs (savefig host (plot_scores all_scores 100 (success_threshold args))
                         (joinpath (output args) "training_scores.png"))
                : M E A F unit))) by quiet.
    apply Hrest in Hmain. rewrite Hmain. simpl.
    rewrite count_app, Hq, Hfresh. reflexivity.
  - intros e w1 Hraised.
    pose proof (never_closes_main_until_saved env agent host args _ _ _ Hraised) as Hq.
    rewrite (bind_raises _ _ _ _ _ Hraised) in Hmain.
    inversion Hmain; subst. repeat split. congruence.
Qed.

Lemma env_closed_iff_model_saved_witness :
  exists r w',
    main (Stub.env 1) Stub.agent Stub.host (with_episodes 3 default_arguments)
         (Stub.start tt) = (r, w') /\
    count is_close (trace w') = 1%nat.
Proof.
  eexists _, _. split; [vm_compute; reflexivity |].
  destruct (env_closed_iff_model_saved (Stub.env 1) Stub.agent Stub.host
              (with_episodes 3 default_arguments) (Stub.start tt) _ _
              eq_refl ltac:(vm_compute; reflexivity)) as (Hclosed & _).
  eapply Hclosed. vm_compute; reflexivity.
Defined.

(** ** The success marker of the plot *)

Section PlotFacts.

Variables (all_scores : list Q) (running_window_size : nat) (success_thresh : Q).

(** The running average plotted at index [idx]. *)
Definition running_average (idx : nat) : Q :=
  np_mean (trailing all_scores running_window_size idx).

(** Episode [x] is the first whose running average [y] lies strictly above
    the threshold. *)
Definition first_crossing (x : nat) (y : Q) : Prop :=
  (1 <= x <= length all_scores)%nat /\
  y = running_average (x - 1) /\
  success_thresh < y /\
  forall j, (j < x - 1)%nat -> ~ success_thresh < running_average j.

Let step := plot_step all_scores running_window_size success_thresh.

(** What the loop of [plot_scores] knows after [n] indices. *)
Definition plot_invariant (n : nat) (st : plot_state) : Prop :=
  match success_xy st with
  | Some (x, y) =>
      plot_success st = true /\ (1 <= x <= n)%nat /\
      y = running_average (x - 1) /\ success_thresh < y /\
      forall j, (j < x - 1)%nat -> ~ success_thresh < running_average j
  | None =>
      plot_success st = false /\
      forall j, (j < n)%nat -> ~ success_thresh < running_average j
  end.

Lemma plot_step_invariant n st :
  plot_invariant n st -> plot_invariant (S n) (step st n).
Proof.
  unfold plot_invariant, step, plot_step. fold (running_average n).
  destruct (success_xy st) as [[x y] |] eqn:Hxy.
  - intros (Hs & Hx & Hy & Hgt & Hfirst). rewrite Hs. simpl.
    repeat split; try assumption; lia.
  - intros (Hs & Hnone). rewrite Hs. simpl.
    destruct (Qlt_bool success_thresh (running_average n)) eqn:Hc; simpl.
    + replace (n + 1 - 1)%nat with n by lia.
      repeat split; try lia.
      * now apply Qlt_bool_iff.
      * exact Hnone.
    + split; [reflexivity |].
      intros j Hj Hgt.
      destruct (Nat.eq_dec j n) as [-> | Hne].
      * apply Qlt_bool_iff in Hgt. congruence.
      * apply (Hnone j); [lia | exact Hgt].
Qed.

Lemma plot_loop_invariant n :
  plot_invariant n (fold_left step (seq 0 n) plot_init).
Proof.
  induction n as [| n IH].
  - simpl. split; [reflexivity |]. intros j Hj. lia.
  - rewrite seq_S, fold_left_app. simpl. now apply plot_step_invariant.
Qed.

Lemma success_xy_first_crossing x y :
  success_xy (plot_loop all_scores running_window_size success_thresh) = Some (x, y)
  <-> first_crossing x y.
Proof.
  pose proof (plot_loop_invariant (length all_scores)) as Hinv.
  unfold plot_loop. fold step. unfold plot_invariant in Hinv.
  destruct (success_xy (fold_left step (seq 0 (length all_scores)) plot_init))
    as [[x' y'] |].
  - destruct Hinv as (_ & Hx' & Hy' & Hgt' & Hfirst').
    split.
    + intros H. inversion H; subst. repeat split; try assumption; lia.
    + intros (Hx & Hy & Hgt & Hfirst).
      assert (Heq : x' = x).
      { destruct (Nat.lt_trichotomy x' x) as [Hlt | [Heq | Hlt]]; [| exact Heq |].
        - exfalso. apply (Hfirst (x' - 1)%nat); [lia |]. now rewrite <- Hy'.
        - exfalso. apply (Hfirst' (x - 1)%nat); [lia |]. now rewrite <- Hy. }
      subst x'. now rewrite Hy, Hy'.
  - destruct Hinv as (_ & Hnone).
    split; [discriminate |].
    intros (Hx & Hy & Hgt & _). exfalso.
    apply (Hnone (x - 1)%nat); [lia |]. now rewrite <- Hy.
Qed.

Lemma truthy_float_iff y : truthy_float y = true <-> ~ y == 0.
Proof.
  unfold truthy_float. rewrite negb_true_iff.
  split.
  - apply Qeq_bool_neq.
  - intros H. destruct (Qeq_bool y 0) eqn:Hb; [| reflexivity].
    apply Qeq_bool_iff in Hb. contradiction.
Qed.

Lemma marker_iff x y :
  marker (plot_scores all_scores running_window_size success_thresh) = Some (x, y)
  <-> first_crossing x y /\ ~ y == 0.
Proof.
  rewrite <- success_xy_first_crossing, <- truthy_float_iff.
  unfold plot_scores, marked. simpl.
  pose proof (success_xy_first_crossing) as Hspec.
  destruct (success_xy (plot_loop all_scores running_window_size success_thresh))
    as [[x' y'] |].
  - assert (Hx' : truthy_int x' = true).
    { destruct (proj1 (Hspec x' y') eq_refl) as ((Hx & _) & _).
      unfold truthy_int. destruct x'; [lia | reflexivity]. }
    rewrite Hx'. simpl.
    destruct (truthy_float y') eqn:Hy'.
    + split; [intros H; inversion H; subst; auto | tauto].
    + split; [discriminate |].
      intros (H & Hy). inversion H; subst. congruence.
  - split; [discriminate | intros (H & _); discriminate].
Qed.

Lemma legend_iff :
  In "Success episode"%string
     (legends (plot_scores all_scores running_window_size success_thresh))
  <-> marker (plot_scores all_scores running_window_size success_thresh) <> None.
Proof.
  unfold plot_scores. simpl.
  destruct (marked (plot_loop all_scores running_window_size success_thresh)) eqn:Hm.
  - split.
    + intros _. unfold marked in Hm.
      destruct (success_xy _) as [[x y] |]; [discriminate | discriminate].
    + intros _. simpl. tauto.
  - split.
    + simpl. intros [H | [H | [H | []]]]; discriminate.
    + intros H. now contradiction H.
Qed.

End PlotFacts.

(** C10: [plot_scores] draws the marker at [(x, y)] exactly when episode [x]
    is the first whose running average [y] is strictly above the threshold
    and [y] is not zero; the legend gets its fourth entry exactly when the
    marker is drawn; so when the running average at the first crossing is 0
    the loop has detected the crossing, yet neither the marker nor the legend
    entry appears. *)
Theorem marker_needs_nonzero_average (all_scores : list Q) (running_window_size : nat)
    (success_thresh : Q) :
  let fig := plot_scores all_scores running_window_size success_thresh in
  (forall x y, marker fig = Some (x, y)
               <-> first_crossing all_scores running_window_size success_thresh x y
                   /\ ~ y == 0) /\
  (In "Success episode"%string (legends fig) <-> marker fig <> None) /\
  (forall x y,
      first_crossing all_scores running_window_size success_thresh x y -> y == 0 ->
      success_xy (plot_loop all_scores running_window_size success_thresh) = Some (x, y) /\
      marker fig = None /\
      ~ In "Success episode"%string (legends fig)).
Proof.
  intros fig. split; [apply marker_iff |]. split; [apply legend_iff |].
  intros x y Hfirst Hzero.
  assert (Hnone : marker fig = None).
  { destruct (marker fig) as [[x' y'] |] eqn:Hm; [| reflexivity].
    apply marker_iff in Hm. destruct Hm as (Hfirst' & Hnz).
    apply success_xy_first_crossing in Hfirst, Hfirst'.
    rewrite Hfirst in Hfirst'. inversion Hfirst'; subst. contradiction. }
  split; [now apply success_xy_first_crossing |].
  split; [exact Hnone |].
  intros Hin. apply legend_iff in Hin. contradiction.
Qed.

Lemma marker_needs_nonzero_average_witness :
  success_xy (plot_loop [0] 100 (-1)) = Some (1%nat, running_average [0] 100 0) /\
  marker (plot_scores [0] 100 (-1)) = None /\
  ~ In "Success episode"%string (legends (plot_scores [0] 100 (-1))).
Proof.
  destruct (marker_needs_nonzero_average [0] 100 (-1)) as (_ & _ & Hzero).
  apply (Hzero 1%nat (running_average [0] 100 0)).
  - repeat split.
    + simpl. lia.
    + simpl. lia.
    + intros j Hj. simpl in Hj. lia.
  - reflexivity.
Defined.


(** * Further properties of the training driver *)

(** ** What a collaborator call leaves alone *)

Lemma emit_frame {E A F} (e : event) (w : world E A F) r w' :
  emit e w = (r, w') ->
  r = Returns tt /\ trace w' = trace w ++ [e] /\ env_st w' = env_st w /\
  agent_st w' = agent_st w /\ fs_st w' = fs_st w.
Proof. unfold emit. intros H. inversion H. now subst. Qed.

Lemma on_env_frame {E A F X} (f : E -> outcome X * E) (w : world E A F) r w' :
  on_env f w = (r, w') ->
  trace w' = trace w /\ agent_st w' = agent_st w /\ fs_st w' = fs_st w.
Proof. unfold on_env. destruct (f (env_st w)). intros H. inversion H. now subst. Qed.

Lemma on_agent_frame {E A F X} (f : A -> outcome X * A) (w : world E A F) r w' :
  on_agent f w = (r, w') ->
  trace w' = trace w /\ env_st w' = env_st w /\ fs_st w' = fs_st w.
Proof. unfold on_agent. destruct (f (agent_st w)). intros H. inversion H. now subst. Qed.

Lemma on_fs_frame {E A F X} (f : F -> outcome X * F) (w : world E A F) r w' :
  on_fs f w = (r, w') ->
  trace w' = trace w /\ env_st w' = env_st w /\ agent_st w' = agent_st w.
Proof. unfold on_fs. destruct (f (fs_st w)). intros H. inversion H. now subst. Qed.

(** ** Environment steps per episode *)

Lemma count_all_steps steps :
  forallb is_step steps = true -> count is_step steps = length steps.
Proof.
  unfold count. induction steps as [| e steps IH]; [reflexivity |].
  simpl. intros H. apply andb_prop in H. destruct H as [He Hs].
  rewrite He. simpl. now rewrite IH.
Qed.

Section StepFacts.

Context {E A F : Type}.
Variable env : Env E.
Variable agent : AgentOps A.
Variables (n_episodes max_t : nat) (eps_end eps_decay success_thresh : Q).

Lemma time_steps_bounded fuel :
  forall epsilon state score (w : world E A F) total w',
    time_steps env agent fuel epsilon state score w = (Returns total, w') ->
    exists steps,
      trace w' = trace w ++ steps /\ forallb is_step steps = true /\
      (length steps <= fuel)%nat /\ ((1 <= fuel)%nat -> (1 <= length steps)%nat) /\
      fs_st w' = fs_st w.
Proof.
  induction fuel as [| fuel IH]; intros epsilon state score w total w' H; simpl in H.
  - inversion H; subst. exists []. rewrite app_nil_r. repeat split; simpl; lia.
  - bind_inv H. bind_inv H. bind_inv H. bind_inv H.
    apply on_agent_frame in H0, H3. apply on_env_frame in H2.
    apply emit_frame in H1.
    destruct H0 as (T0 & _ & F0), H1 as (_ & T1 & _ & _ & F1),
             H2 as (T2 & _ & F2), H3 as (T3 & _ & F3).
    destruct (local_done x1).
    + inversion H; subst. exists [EnvStep x].
      repeat split; simpl; try lia; congruence.
    + apply IH in H. destruct H as (steps & Htr & Hall & Hle & _ & Hfs).
      exists (EnvStep x :: steps). repeat split; simpl; try lia.
      * rewrite Htr, T3, T2, T1, T0, <- app_assoc. reflexivity.
      * exact Hall.
      * congruence.
Qed.

Lemma episode_steps i_episode st (w : world E A F) st' w' :
  episode env agent n_episodes max_t eps_end eps_decay success_thresh i_episode st w
  = (Returns st', w') ->
  exists score steps,
    st' = after_episode eps_end eps_decay success_thresh score st /\
    trace w' = trace w ++ [EnvReset] ++ steps
               ++ report n_episodes eps_end eps_decay success_thresh i_episode score st /\
    forallb is_step steps = true /\
    (length steps <= max_t)%nat /\ ((1 <= max_t)%nat -> (1 <= length steps)%nat) /\
    (max_t = 0%nat -> score = 0 /\ agent_st w' = agent_st w) /\
    fs_st w' = fs_st w.
Proof.
  intros H.
  destruct (episode_returns _ _ _ _ _ _ _ _ _ _ _ _ H)
    as (score & steps & Hst & Htr & Hall & _).
  exists score, steps. split; [exact Hst |]. split; [exact Htr |].
  split; [exact Hall |].
  unfold episode in H.
  bind_inv H. bind_inv H. bind_inv H.
  apply emit_frame in H0. destruct H0 as (_ & T0 & _ & A0 & F0).
  apply on_env_frame in H1. destruct H1 as (T1 & A1 & F1).
  assert (Hrest : trace w' = trace w2 ++ report n_episodes eps_end eps_decay
                    success_thresh i_episode x1 st /\
                  agent_st w' = agent_st w2 /\ fs_st w' = fs_st w2 /\
                  st' = after_episode eps_end eps_decay success_thresh x1 st).
  { clear - H.
    apply bind_returns in H. destruct H as (u0 & w0 & H0 & H).
    apply bind_returns in H. destruct H as (u1 & w1 & H1 & H).
    apply emit_frame in H0. destruct H0 as (_ & T3 & _ & A3 & F3).
    assert (Hw : trace w1 = trace w0 ++
              (if (i_episode mod 100 =? 0)%nat
               then [TqdmWrite (Progress i_episode n_episodes
                       (np_mean (deque_append 100 x1 (scores_window st)))
                       (py_max eps_end (eps_decay * eps st)))]
               else []) /\ agent_st w1 = agent_st w0 /\ fs_st w1 = fs_st w0).
    { unfold when in H1. destruct (i_episode mod 100 =? 0)%nat.
      - apply emit_frame in H1. tauto.
      - inversion H1. now rewrite app_nil_r. }
    destruct Hw as (T4 & A4 & F4).
    unfold report, after_episode. cbn [scores_window eps success].
    destruct (success st); cbn [negb andb orb] in *.
    - inversion H; subst. rewrite T4, T3, <- !app_assoc, app_nil_r.
      repeat split; congruence.
    - destruct (Qle_bool success_thresh (np_mean (deque_append 100 x1 (scores_window st)))).
      + apply bind_returns in H. destruct H as (u5 & w5 & H5 & H).
        apply emit_frame in H5. destruct H5 as (_ & T5 & _ & A5 & F5).
        inversion H; subst. rewrite T5, T4, T3, <- !app_assoc.
        repeat split; congruence.
      + inversion H; subst. rewrite T4, T3, <- !app_assoc, app_nil_r.
        repeat split; congruence. }
  destruct Hrest as (Tr & Ar & Fr & Hst').
  assert (Hscore : x1 = score).
  { rewrite Hst in Hst'. apply (f_equal scores) in Hst'. simpl in Hst'.
    apply app_inj_tail in Hst'. now destruct Hst'. }
  subst x1.
  pose proof H2 as Hplay. apply time_steps_bounded in H2.
  destruct H2 as (steps' & T2 & Hall' & Hle & Hge & F2).
  assert (Hsame : steps' = steps).
  { rewrite Tr, T2, T1, T0, <- !app_assoc in Htr.
    apply app_inv_head in Htr. simpl in Htr. inversion Htr as [Heq].
    now apply app_inv_tail in Heq. }
  subst steps'. repeat split; try assumption.
  - subst max_t. simpl in Hplay. now inversion Hplay.
  - subst max_t. simpl in Hplay. inversion Hplay; subst. congruence.
  - congruence.
Qed.

End StepFacts.

Section RunSteps.

Context {E A F : Type}.
Variable env : Env E.
Variable agent : AgentOps A.
Variables (n_episodes max_t : nat) (eps_end eps_decay success_thresh : Q).

Lemma count_report_step i score st :
  count is_step (report n_episodes eps_end eps_decay success_thresh i score st) = 0%nat.
Proof.
  unfold report.
  destruct (i mod 100 =? 0)%nat;
    destruct (negb (success st) && Qle_bool success_thresh _); reflexivity.
Qed.

Lemma loop_steps k : forall i st (w : world E A F) st' w',
  episode_loop env agent n_episodes max_t eps_end eps_decay success_thresh k i st w
  = (Returns st', w') ->
  (count is_step (trace w') <= count is_step (trace w) + k * max_t)%nat /\
  (count is_step (trace w) <= count is_step (trace w'))%nat /\
  ((1 <= max_t)%nat -> (count is_step (trace w) + k <= count is_step (trace w'))%nat) /\
  (max_t = 0%nat ->
   scores st' = scores st ++ repeat 0 k /\ agent_st w' = agent_st w) /\
  fs_st w' = fs_st w.
Proof.
  induction k as [| k IH]; intros i st w st' w' H.
  - inversion H; subst. rewrite app_nil_r. repeat split; lia.
  - simpl in H. bind_inv H.
    apply episode_steps in H0.
    destruct H0 as (score & steps & Hst & Htr & Hall & Hle & Hge & Hzero & Hfs).
    apply IH in H. destruct H as (Hup & Hmono & Hlow & Hz & Hfs').
    assert (Hcount : count is_step (trace w0) = (count is_step (trace w) + length steps)%nat).
    { rewrite Htr, !count_app, count_report_step, (count_all_steps steps Hall).
      unfold count at 2. simpl. lia. }
    rewrite Hcount in Hup, Hlow, Hmono.
    repeat split.
    + simpl. lia.
    + lia.
    + intros Hmax. specialize (Hlow Hmax). specialize (Hge Hmax). lia.
    + destruct (Hz H) as (Hs & _). destruct (Hzero H) as (Hscore & _).
      rewrite Hs, Hst, Hscore. simpl. now rewrite <- app_assoc.
    + destruct (Hz H) as (_ & Ha). destruct (Hzero H) as (_ & Ha'). congruence.
    + congruence.
Qed.

End RunSteps.

(** X1: a run of [train_agent] that returns has made at most
    [n_episodes * max_t] environment steps and, when [max_t >= 1], at least
    one per episode. *)
Theorem steps_per_run_bounded {E A F} (env : Env E) (agent : AgentOps A)
    (n_episodes max_t : nat) (eps_start eps_end eps_decay success_thresh : Q)
    (w : world E A F) all_scores w' :
  train_agent env agent n_episodes max_t eps_start eps_end eps_decay success_thresh w
  = (Returns all_scores, w') ->
  (count is_step (trace w') <= count is_step (trace w) + n_episodes * max_t)%nat /\
  ((1 <= max_t)%nat ->
   (count is_step (trace w) + n_episodes <= count is_step (trace w'))%nat).
Proof.
  unfold train_agent. intros H. bind_inv H. inversion H; subst.
  apply loop_steps in H0. tauto.
Qed.

Lemma steps_per_run_bounded_witness :
  exists all_scores w',
    train_agent Stub.replay_env Stub.agent 3 2 1 (1 # 100) (995 # 1000) 13
                (Stub.start [4; 5; 6]) = (Returns all_scores, w') /\
    (count is_step (trace w') <= 6)%nat /\ (3 <= count is_step (trace w'))%nat.
Proof.
  eexists _, _. split; [vm_compute; reflexivity |].
  destruct (steps_per_run_bounded Stub.replay_env Stub.agent 3 2 1 (1 # 100) (995 # 1000)
              13 (Stub.start [4; 5; 6]) _ _ ltac:(vm_compute; reflexivity))
    as (Hup & Hlow).
  split; [exact Hup | apply Hlow; lia].
Defined.

(** X2: with [max_t = 0] the time-step loop is empty: a run that returns has
    consulted neither the agent nor the environment's [step], and every
    score in the history is 0. *)
Theorem zero_step_budget {E A F} (env : Env E) (agent : AgentOps A)
    (n_episodes : nat) (eps_start eps_end eps_decay success_thresh : Q)
    (w : world E A F) all_scores w' :
  train_agent env agent n_episodes 0 eps_start eps_end eps_decay success_thresh w
  = (Returns all_scores, w') ->
  all_scores = repeat 0 n_episodes /\
  agent_st w' = agent_st w /\
  count is_step (trace w') = count is_step (trace w).
Proof.
  unfold train_agent. intros H. bind_inv H. inversion H; subst.
  apply loop_steps in H0. destruct H0 as (Hup & Hmono & _ & Hz & _).
  destruct (Hz eq_refl) as (Hs & Ha).
  repeat split; [exact Hs | exact Ha | lia].
Qed.

Lemma zero_step_budget_witness :
  exists all_scores w',
    train_agent (Stub.env 1) Stub.agent 4 0 1 (1 # 100) (995 # 1000) 13
                (Stub.start tt) = (Returns all_scores, w') /\
    all_scores = [0; 0; 0; 0].
Proof.
  eexists _, _. split; [vm_compute; reflexivity |].
  apply (zero_step_budget (Stub.env 1) Stub.agent 4 1 (1 # 100) (995 # 1000) 13
           (Stub.start tt) _ _ ltac:(vm_compute; reflexivity)).
Defined.

(** ** More on the exploration rate *)

Lemma py_max_floor a b : b <= a -> py_max a b = a.
Proof.
  intros H. unfold py_max.
  destruct (Qlt_bool a b) eqn:Hc; [| reflexivity].
  apply Qlt_bool_iff in Hc. exfalso. now apply (Qlt_not_le a b).
Qed.

Section DecayFacts.

Variables (eps_end eps_decay : Q).

Hypothesis floor_nonneg : 0 <= eps_end.
Hypothesis decay_at_most_one : eps_decay <= 1.

Lemma decay_at_floor epsilon :
  epsilon == eps_end -> decay eps_end eps_decay epsilon = eps_end.
Proof.
  intros H. unfold decay. apply py_max_floor.
  rewrite H. rewrite <- (Qmult_1_l eps_end) at 2.
  now apply Qmult_le_compat_r.
Qed.

Lemma iterated_decay_at_floor m epsilon :
  epsilon == eps_end ->
  Nat.iter (S m) (decay eps_end eps_decay) epsilon = eps_end.
Proof.
  intros H. induction m as [| m IH].
  - simpl. now apply decay_at_floor.
  - change (Nat.iter (S (S m)) (decay eps_end eps_decay) epsilon)
      with (decay eps_end eps_decay (Nat.iter (S m) (decay eps_end eps_decay) epsilon)).
    rewrite IH. apply decay_at_floor. apply Qeq_refl.
Qed.

End DecayFacts.

(** X3: whatever the hyperparameters, at the end of episode [k >= 1] the
    exploration rate is the [k]-fold iterate of
    [e |-> max(eps_end, eps_decay * e)] on [eps_start], and it is at least
    [eps_end]. *)
Theorem epsilon_never_below_floor {E A F} (env : Env E) (agent : AgentOps A)
    (n_episodes max_t : nat) (eps_start eps_end eps_decay success_thresh : Q)
    (w : world E A F) k st w' :
  after_k_episodes env agent n_episodes max_t eps_start eps_end eps_decay
                   success_thresh (S k) w = (Returns st, w') ->
  eps st = Nat.iter (S k) (decay eps_end eps_decay) eps_start /\
  eps_end <= eps st.
Proof.
  unfold after_k_episodes. intros H.
  apply loop_returns in H. destruct H as (earned & Hlen & Hst & _).
  assert (Heps : eps st = Nat.iter (S k) (decay eps_end eps_decay) eps_start).
  { rewrite Hst, eps_after, Hlen. reflexivity. }
  split; [exact Heps |].
  rewrite Heps. simpl. apply py_max_lower.
Qed.

Lemma epsilon_never_below_floor_witness :
  exists st w',
    after_k_episodes (Stub.env 1) Stub.agent 2 default_max_t 1 3 2 13
                     2 (Stub.start tt) = (Returns st, w') /\
    3 <= eps st.
Proof.
  eexists _, _. split; [vm_compute; reflexivity |].
  apply (epsilon_never_below_floor (Stub.env 1) Stub.agent 2 default_max_t 1 3 2 13
           (Stub.start tt) 1 _ _ ltac:(vm_compute; reflexivity)).
Defined.

(** X4: when [0 <= eps_end] and [eps_decay <= 1], once the exploration rate
    equals [eps_end] at the end of an episode it is exactly [eps_end] at the
    end of every later episode. *)
Theorem epsilon_stays_at_floor {E A F} (env : Env E) (agent : AgentOps A)
    (n_episodes max_t : nat) (eps_start eps_end eps_decay success_thresh : Q)
    (w : world E A F) j m stj wj st w' :
  0 <= eps_end -> eps_decay <= 1 ->
  after_k_episodes env agent n_episodes max_t eps_start eps_end eps_decay
                   success_thresh j w = (Returns stj, wj) ->
  eps stj == eps_end ->
  after_k_episodes env agent n_episodes max_t eps_start eps_end eps_decay
                   success_thresh (j + S m) w = (Returns st, w') ->
  eps st = eps_end.
Proof.
  unfold after_k_episodes. intros Hnonneg Hdecay Hj Hfloor Hlater.
  apply loop_prefix in Hlater. destruct Hlater as (st1 & w1 & Hj' & Hrest).
  rewrite Hj in Hj'. inversion Hj'; subst st1 w1.
  apply loop_returns in Hrest. destruct Hrest as (earned & Hlen & Hst & _).
  rewrite Hst, eps_after, Hlen.
  now apply iterated_decay_at_floor.
Qed.

Lemma epsilon_stays_at_floor_witness :
  exists st w',
    after_k_episodes (Stub.env 1) Stub.agent 4 default_max_t 1 (1 # 2) (1 # 2) 13
                     4 (Stub.start tt) = (Returns st, w') /\
    eps st = 1 # 2.
Proof.
  eexists _, _. split; [vm_compute; reflexivity |].
  eapply (epsilon_stays_at_floor (Stub.env 1) Stub.agent 4 default_max_t
            1 (1 # 2) (1 # 2) 13 (Stub.start tt) 1 2).
  - discriminate.
  - discriminate.
  - vm_compute; reflexivity.
  - reflexivity.
  - vm_compute; reflexivity.
Defined.

(** ** What the console shows *)

(** The running means shown on the progress bar, in order. *)
Definition shown_avg (tr : list event) : list Q :=
  flat_map (fun e => match e with SetPostfix a _ => [a] | _ => [] end) tr.

(** The episode numbers of the "Episode i/n" lines, in order. *)
Definition progress_at (tr : list event) : list nat :=
  flat_map (fun e => match e with TqdmWrite (Progress i _ _ _) => [i] | _ => [] end) tr.

Lemma shown_avg_app l1 l2 : shown_avg (l1 ++ l2) = shown_avg l1 ++ shown_avg l2.
Proof. apply flat_map_app. Qed.

Lemma progress_at_app l1 l2 : progress_at (l1 ++ l2) = progress_at l1 ++ progress_at l2.
Proof. apply flat_map_app. Qed.

Lemma steps_show_nothing steps :
  forallb is_step steps = true ->
  shown_avg steps = [] /\ shown_eps steps = [] /\ progress_at steps = [].
Proof.
  induction steps as [| e steps IH]; [auto |].
  simpl. intros H. apply andb_prop in H. destruct H as [He Hs].
  destruct e; try discriminate. simpl. now apply IH.
Qed.

Lemma find_snoc {X} (f : X -> bool) l x :
  find f (l ++ [x])
  = match find f l with
    | Some y => Some y
    | None => if f x then Some x else None
    end.
Proof.
  induction l as [| y l IH]; simpl; [reflexivity |].
  destruct (f y); [reflexivity | exact IH].
Qed.

Lemma find_ext_in {X} (f g : X -> bool) l :
  (forall x, In x l -> f x = g x) -> find f l = find g l.
Proof.
  induction l as [| y l IH]; intros H; simpl; [reflexivity |].
  rewrite (H y) by now left.
  destruct (g y); [reflexivity |]. apply IH. intros x Hx. apply H. now right.
Qed.

Lemma existsb_ext_in {X} (f g : X -> bool) l :
  (forall x, In x l -> f x = g x) -> existsb f l = existsb g l.
Proof.
  induction l as [| y l IH]; intros H; simpl; [reflexivity |].
  rewrite (H y) by now left. f_equal. apply IH. intros x Hx. apply H. now right.
Qed.

Lemma find_seq_none (f : nat -> bool) n :
  find f (seq 0 n) = None <-> forall i, (i < n)%nat -> f i = false.
Proof.
  induction n as [| n IH].
  - simpl. split; [intros _ i Hi; lia | reflexivity].
  - rewrite seq_S, find_snoc. simpl.
    destruct (find f (seq 0 n)) as [j |] eqn:Hfind.
    + split; [discriminate |]. intros H.
      destruct (find_some _ _ Hfind) as (Hin & Hf). apply in_seq in Hin.
      rewrite H in Hf by lia. discriminate.
    + destruct IH as (IH & _). specialize (IH eq_refl).
      destruct (f n) eqn:Hn.
      * split; [discriminate |]. intros H. rewrite H in Hn by lia. discriminate.
      * split; [| reflexivity]. intros _ i Hi.
        destruct (Nat.eq_dec i n) as [-> | Hne]; [exact Hn | apply IH; lia].
Qed.

Lemma find_seq_first (f : nat -> bool) n : forall j,
  find f (seq 0 n) = Some j <->
  (j < n)%nat /\ f j = true /\ forall i, (i < j)%nat -> f i = false.
Proof.
  induction n as [| n IH]; intros j.
  - simpl. split; [discriminate | intros (H & _); lia].
  - rewrite seq_S, find_snoc. simpl.
    destruct (find f (seq 0 n)) as [j' |] eqn:Hfind.
    + destruct (proj1 (IH j') eq_refl) as (Hj' & Hf' & Hbefore').
      split.
      * intros H. inversion H; subst. repeat split; [lia | exact Hf' | exact Hbefore'].
      * intros (Hj & Hf & Hbefore). f_equal.
        destruct (Nat.lt_trichotomy j' j) as [Hlt | [Heq | Hlt]]; [| exact Heq |].
        -- rewrite (Hbefore j' Hlt) in Hf'. discriminate.
        -- rewrite (Hbefore' j Hlt) in Hf. discriminate.
    + pose proof (proj1 (find_seq_none f n) Hfind) as Hnone.
      destruct (f n) eqn:Hn.
      * split.
        -- intros H. inversion H; subst. repeat split; [lia | exact Hn | exact Hnone].
        -- intros (Hj & Hf & _). f_equal.
           destruct (Nat.eq_dec j n) as [-> | Hne]; [reflexivity |].
           rewrite Hnone in Hf by lia. discriminate.
      * split; [discriminate |]. intros (Hj & Hf & _).
        destruct (Nat.eq_dec j n) as [-> | Hne]; [congruence |].
        rewrite Hnone in Hf by lia. discriminate.
Qed.

(** ** Windows as slices of the score history *)

Lemma trailing_app (l l' : list Q) (running_window_size idx : nat) :
  (idx < length l)%nat ->
  trailing (l ++ l') running_window_size idx = trailing l running_window_size idx.
Proof.
  intros Hidx. unfold trailing, slice.
  rewrite skipn_app, firstn_app, length_skipn.
  replace (idx + 1 - (idx + 1 - running_window_size)
           - (length l - (idx + 1 - running_window_size)))%nat with 0%nat by lia.
  simpl. now rewrite app_nil_r.
Qed.

Lemma trailing_last (l : list Q) (running_window_size k : nat) :
  length l = S k ->
  trailing l running_window_size k = skipn (S k - running_window_size) l.
Proof.
  intros Hlen. unfold trailing, slice.
  replace (k + 1)%nat with (S k) by lia.
  apply firstn_all2. rewrite length_skipn. lia.
Qed.

Section Display.

Context {E A F : Type}.
Variable env : Env E.
Variable agent : AgentOps A.
Variables (n_episodes max_t : nat) (eps_start eps_end eps_decay success_thresh : Q).

(** Whether the window mean plotted at index [j] reaches the threshold. *)
Definition reached (history : list Q) (j : nat) : bool :=
  Qle_bool success_thresh (running_average history 100 j).

Lemma episode_display i_episode st (w : world E A F) st' w' :
  episode env agent n_episodes max_t eps_end eps_decay success_thresh i_episode st w
  = (Returns st', w') ->
  exists score,
    st' = after_episode eps_end eps_decay success_thresh score st /\
    shown_avg (trace w') = shown_avg (trace w) ++ [np_mean (scores_window st')] /\
    shown_eps (trace w') = shown_eps (trace w) ++ [eps st'] /\
    progress_at (trace w')
    = progress_at (trace w) ++ (if (i_episode mod 100 =? 0)%nat then [i_episode] else []) /\
    solved_at (trace w')
    = solved_at (trace w)
      ++ (if negb (success st) && Qle_bool success_thresh (np_mean (scores_window st'))
          then [i_episode] else []).
Proof.
  intros H. apply episode_returns in H.
  destruct H as (score & steps & Hst & Htr & Hall & _).
  destruct (steps_show_nothing steps Hall) as (Ha & He & Hp).
  exists score. split; [exact Hst |].
  rewrite Htr.
  rewrite !shown_avg_app, !shown_eps_app, !progress_at_app, !solved_at_app.
  rewrite Ha, He, Hp, (solved_at_steps steps Hall), solved_at_report.
  subst st'. unfold report. cbn [app shown_avg shown_eps progress_at solved_at flat_map].
  repeat split.
  - destruct (i_episode mod 100 =? 0)%nat;
      destruct (negb (success st) && Qle_bool success_thresh _); reflexivity.
  - destruct (i_episode mod 100 =? 0)%nat;
      destruct (negb (success st) && Qle_bool success_thresh _); reflexivity.
  - rewrite !progress_at_app.
    destruct (i_episode mod 100 =? 0)%nat;
      destruct (negb (success st) && Qle_bool success_thresh _); reflexivity.
Qed.

(** The loop variables and the console after [k] episodes, in terms of the
    score history. *)
Lemma run_display k : forall (w : world E A F) st w',
  after_k_episodes env agent n_episodes max_t eps_start eps_end eps_decay
                   success_thresh k w = (Returns st, w') ->
  length (scores st) = k /\
  scores_window st = skipn (k - 100) (scores st) /\
  shown_avg (trace w')
  = shown_avg (trace w) ++ map (running_average (scores st) 100) (seq 0 k) /\
  shown_eps (trace w')
  = shown_eps (trace w)
    ++ map (fun j => Nat.iter (S j) (decay eps_end eps_decay) eps_start) (seq 0 k) /\
  progress_at (trace w')
  = progress_at (trace w) ++ filter (fun i => (i mod 100 =? 0)%nat) (seq 1 k) /\
  success st = existsb (reached (scores st)) (seq 0 k) /\
  solved_at (trace w')
  = solved_at (trace w)
    ++ match find (reached (scores st)) (seq 0 k) with
       | Some j => [S j]
       | None => []
       end.
Proof.
  unfold after_k_episodes.
  induction k as [| k IH]; intros w st w' H.
  - inversion H; subst. simpl. rewrite !app_nil_r. repeat split.
  - pose proof H as Heps.
    apply loop_returns in Heps. destruct Heps as (earned & Hlen & Hst & _).
    assert (Hepsilon : eps st = Nat.iter (S k) (decay eps_end eps_decay) eps_start).
    { rewrite Hst, eps_after, Hlen. reflexivity. }
    apply loop_last in H. destruct H as (st1 & w1 & Hk & Hlast).
    apply IH in Hk. destruct Hk as (L1 & W1 & A1 & E1 & P1 & S1 & Sol1).
    apply episode_display in Hlast.
    destruct Hlast as (score & Hnext & A2 & E2 & P2 & Sol2).
    assert (Hscores : scores st = scores st1 ++ [score]) by now subst st.
    assert (Hlen' : length (scores st) = S k).
    { rewrite Hscores, length_app, L1. simpl. lia. }
    assert (Hwin : scores_window st = skipn (S k - 100) (scores st)).
    { rewrite <- Hlen', Hscores, <- window_is_recent_scores, <- L1 in *.
      rewrite <- W1. now subst st. }
    assert (Hold : forall j, In j (seq 0 k) ->
              running_average (scores st) 100 j = running_average (scores st1) 100 j).
    { intros j Hj. apply in_seq in Hj. unfold running_average.
      rewrite Hscores, trailing_app by lia. reflexivity. }
    assert (Hnew : np_mean (scores_window st) = running_average (scores st) 100 k).
    { unfold running_average. now rewrite (trailing_last _ 100 k Hlen'), Hwin. }
    assert (Hreach : forall j, In j (seq 0 k) ->
              reached (scores st) j = reached (scores st1) j).
    { intros j Hj. unfold reached. now rewrite Hold. }
    assert (Hflag : success st = success st1 || reached (scores st) k).
    { unfold reached. rewrite <- Hnew. rewrite Hnext. reflexivity. }
    rewrite Hnew in A2, Sol2.
    repeat split.
    + exact Hlen'.
    + exact Hwin.
    + rewrite A2, A1, seq_S, map_app, <- app_assoc. simpl.
      now rewrite (map_ext_in _ _ _ Hold).
    + rewrite E2, E1, seq_S, map_app, <- app_assoc. simpl. now rewrite Hepsilon.
    + rewrite P2, P1, seq_S, filter_app, <- app_assoc. simpl.
      now destruct (S k mod 100 =? 0)%nat.
    + rewrite seq_S, existsb_app. simpl. rewrite orb_false_r.
      rewrite (existsb_ext_in _ _ _ Hreach), <- S1. exact Hflag.
    + rewrite Sol2, Sol1, seq_S, find_snoc, <- app_assoc. simpl.
      rewrite (find_ext_in _ _ _ Hreach).
      fold (reached (scores st) k).
      rewrite S1.
      destruct (find (reached (scores st1)) (seq 0 k)) as [j |] eqn:Hfind.
      * destruct (find_some _ _ Hfind) as (Hin & Hf).
        rewrite (proj2 (existsb_exists _ _)) by (exists j; auto).
        simpl. reflexivity.
      * assert (Hno : existsb (reached (scores st1)) (seq 0 k) = false).
        { destruct (existsb _ _) eqn:Hex; [| reflexivity].
          apply existsb_exists in Hex. destruct Hex as (j & Hin & Hf).
          rewrite (find_none _ _ Hfind j Hin) in Hf. discriminate. }
        rewrite Hno. simpl.
        destruct (reached (scores st) k); reflexivity.
Qed.

End Display.

(** ** Medians are made of the data *)

Lemma in_firstn {X} n (l : list X) x : In x (firstn n l) -> In x l.
Proof. intros H. rewrite <- (firstn_skipn n l). apply in_or_app. now left. Qed.

Lemma in_skipn {X} n (l : list X) x : In x (skipn n l) -> In x l.
Proof. intros H. rewrite <- (firstn_skipn n l). apply in_or_app. now right. Qed.

Lemma in_trailing (l : list Q) (running_window_size idx : nat) x :
  In x (trailing l running_window_size idx) -> In x l.
Proof. unfold trailing, slice. intros H. apply in_firstn in H. now apply in_skipn in H. Qed.

Lemma in_insert_sorted x y l : In x (insert_sorted y l) <-> x = y \/ In x l.
Proof.
  induction l as [| z l IH]; simpl.
  - intuition.
  - destruct (Qle_bool y z); simpl; [intuition |]. rewrite IH. intuition.
Qed.

Lemma in_sort x l : In x (sort l) <-> In x l.
Proof.
  induction l as [| y l IH]; simpl; [tauto |].
  rewrite in_insert_sorted, IH. intuition.
Qed.

Lemma length_insert_sorted y l : length (insert_sorted y l) = S (length l).
Proof.
  induction l as [| z l IH]; simpl; [reflexivity |].
  destruct (Qle_bool y z); simpl; [reflexivity | now rewrite IH].
Qed.

Lemma length_sort l : length (sort l) = length l.
Proof.
  induction l as [| y l IH]; simpl; [reflexivity |].
  now rewrite length_insert_sorted, IH.
Qed.

Lemma np_median_cases l :
  l <> [] ->
  (Nat.even (length l) = false -> In (np_median l) l) /\
  (Nat.even (length l) = true ->
   exists a b, In a l /\ In b l /\ np_median l = (a + b) / 2).
Proof.
  intros Hne. unfold np_median. rewrite length_sort.
  assert (Hlen : (0 < length l)%nat) by (destruct l; [contradiction | simpl; lia]).
  assert (Hnth : forall i, (i < length l)%nat -> In (nth i (sort l) 0) l).
  { intros i Hi. apply in_sort. apply nth_In. now rewrite length_sort. }
  assert (Hhalf : (length l / 2 < length l)%nat) by (apply Nat.div_lt; lia).
  split; intros Heven; rewrite Heven.
  - now apply Hnth.
  - exists (nth (length l / 2 - 1) (sort l) 0), (nth (length l / 2) (sort l) 0).
    repeat split; apply Hnth; lia.
Qed.

(** ** The curves of the plot *)

Lemma plot_loop_curves (all_scores : list Q) (running_window_size : nat)
      (success_thresh : Q) n :
  let st := fold_left (plot_step all_scores running_window_size success_thresh)
                      (seq 0 n) plot_init in
  ra_scores st = map (running_average all_scores running_window_size) (seq 0 n) /\
  rm_scores st = map (fun idx => np_median (trailing all_scores running_window_size idx))
                     (seq 0 n).
Proof.
  induction n as [| n (IHa & IHm)]; [split; reflexivity |].
  rewrite seq_S, fold_left_app, !map_app. simpl.
  unfold plot_step at 1 3.
  destruct (negb _ && _); simpl; rewrite IHa, IHm; split; reflexivity.
Qed.

(** X6: [plot_scores] draws one point per episode on each curve: the raw
    curve is the score list itself, point [idx] of the running-average curve
    is the mean of [scores[max(0, idx - w + 1) : idx + 1]] and point [idx] of
    the running-median curve is the median of the same slice. *)
Theorem plot_curves_pointwise (all_scores : list Q) (running_window_size : nat)
    (success_thresh : Q) :
  let fig := plot_scores all_scores running_window_size success_thresh in
  raw_curve fig = all_scores /\
  length (ra_curve fig) = length all_scores /\
  length (rm_curve fig) = length all_scores /\
  (forall idx, (idx < length all_scores)%nat ->
     nth_error (ra_curve fig) idx
     = Some (np_mean (slice all_scores (idx + 1 - running_window_size) (idx + 1))) /\
     nth_error (rm_curve fig) idx
     = Some (np_median (slice all_scores (idx + 1 - running_window_size) (idx + 1)))).
Proof.
  destruct (plot_loop_curves all_scores running_window_size success_thresh
              (length all_scores)) as (Ha & Hm).
  simpl. unfold plot_loop. rewrite Ha, Hm, !length_map, length_seq.
  repeat split.
  - rewrite nth_error_map, nth_error_seq.
    destruct (Nat.ltb_spec idx (length all_scores)); [reflexivity | lia].
  - rewrite nth_error_map, nth_error_seq.
    destruct (Nat.ltb_spec idx (length all_scores)); [reflexivity | lia].
Qed.

Lemma plot_curves_pointwise_witness :
  nth_error (ra_curve (plot_scores [1; 5; 3; 20] 2 13)) 3 = Some (np_mean [3; 20]).
Proof.
  destruct (plot_curves_pointwise [1; 5; 3; 20] 2 13) as (_ & _ & _ & H).
  apply (H 3%nat). simpl. lia.
Defined.

(** X7: with a window of at least one episode, a point of the
    running-median curve whose slice holds an odd number of scores is one of
    the scores of that slice; when the slice holds an even number of scores,
    the point is the half-sum of two of them. *)
Theorem plot_median_is_made_of_scores (all_scores : list Q)
    (running_window_size : nat) (success_thresh : Q) idx y :
  (0 < running_window_size)%nat ->
  nth_error (rm_curve (plot_scores all_scores running_window_size success_thresh)) idx
  = Some y ->
  let window := slice all_scores (idx + 1 - running_window_size) (idx + 1) in
  (Nat.even (length window) = false -> In y window /\ In y all_scores) /\
  (Nat.even (length window) = true ->
   exists a b, In a window /\ In b window /\ y = (a + b) / 2).
Proof.
  intros Hw Hnth window.
  destruct (plot_loop_curves all_scores running_window_size success_thresh
              (length all_scores)) as (_ & Hm).
  simpl in Hnth. unfold plot_loop in Hnth. rewrite Hm in Hnth.
  assert (Hidx : (idx < length all_scores)%nat).
  { match type of Hnth with
    | nth_error ?l _ = _ => pose proof (proj1 (nth_error_Some l idx)) as Hlt
    end.
    rewrite Hnth, length_map, length_seq in Hlt. apply Hlt. discriminate. }
  rewrite nth_error_map, nth_error_seq in Hnth.
  destruct (Nat.ltb_spec idx (length all_scores)); [| lia].
  simpl in Hnth. inversion Hnth as [Hy]. clear Hnth.
  fold window in Hy |- *. change (trailing all_scores running_window_size idx)
    with window in Hy.
  assert (Hne : window <> []) by (apply (slice_nonempty all_scores); assumption).
  destruct (np_median_cases window Hne) as (Hodd & Heven).
  split.
  - intros Hlen. specialize (Hodd Hlen). split; [exact Hodd |].
    now apply (in_trailing all_scores running_window_size idx).
  - exact Heven.
Qed.

Lemma plot_median_is_made_of_scores_witness :
  In 3 [1; 5; 3] /\ In 3 [1; 5; 3; 20].
Proof.
  destruct (plot_median_is_made_of_scores [1; 5; 3; 20] 3 13 2 3 ltac:(lia)
              ltac:(vm_compute; reflexivity)) as (Hodd & _).
  apply Hodd. reflexivity.
Defined.

(** ** The console against the score history and the plot *)

(** Episode [i] is the first whose mean over the trailing 100 scores is at
    or above the threshold. *)
Definition first_reaching (history : list Q) (success_thresh : Q) (i : nat) : Prop :=
  (1 <= i <= length history)%nat /\
  success_thresh <= running_average history 100 (i - 1) /\
  forall j, (j < i - 1)%nat -> ~ success_thresh <= running_average history 100 j.

Lemma find_reached_iff (history : list Q) (success_thresh : Q) j :
  find (reached success_thresh history) (seq 0 (length history)) = Some j
  <-> first_reaching history success_thresh (S j).
Proof.
  rewrite find_seq_first. unfold first_reaching, reached.
  replace (S j - 1)%nat with j by lia.
  split.
  - intros (Hj & Hr & Hbefore). split; [lia |]. split; [now apply Qle_bool_iff |].
    intros i Hi Hle. apply Qle_bool_iff in Hle. rewrite Hbefore in Hle by exact Hi.
    discriminate.
  - intros (Hj & Hr & Hbefore). split; [lia |]. split; [now apply Qle_bool_iff |].
    intros i Hi. destruct (Qle_bool _ _) eqn:Hc; [| reflexivity].
    apply Qle_bool_iff in Hc. now apply Hbefore in Hc.
Qed.

Lemma train_agent_returns {E A F} (env : Env E) (agent : AgentOps A)
    (n_episodes max_t : nat) (eps_start eps_end eps_decay success_thresh : Q)
    (w : world E A F) all_scores w' :
  train_agent env agent n_episodes max_t eps_start eps_end eps_decay success_thresh w
  = (Returns all_scores, w') ->
  exists st,
    after_k_episodes env agent n_episodes max_t eps_start eps_end eps_decay
                     success_thresh n_episodes w = (Returns st, w') /\
    scores st = all_scores.
Proof.
  unfold train_agent. intros H. bind_inv H. inversion H; subst.
  now exists x.
Qed.

(** X9: the running means that [train_agent] shows on the progress bar,
    episode after episode, are exactly the running-average curve that
    [plot_scores] draws (with its window of 100) from the returned history;
    the exploration rates shown are the rates after the end-of-episode
    update. *)
Theorem console_shows_plotted_averages {E A F} (env : Env E) (agent : AgentOps A)
    (n_episodes max_t : nat) (eps_start eps_end eps_decay success_thresh : Q)
    (w : world E A F) all_scores w' :
  train_agent env agent n_episodes max_t eps_start eps_end eps_decay success_thresh w
  = (Returns all_scores, w') ->
  (forall plot_thresh,
      shown_avg (trace w')
      = shown_avg (trace w) ++ ra_curve (plot_scores all_scores 100 plot_thresh)) /\
  shown_eps (trace w')
  = shown_eps (trace w)
    ++ map (fun j => Nat.iter (S j) (decay eps_end eps_decay) eps_start)
           (seq 0 n_episodes).
Proof.
  intros H. apply train_agent_returns in H. destruct H as (st & Hrun & Hscores).
  apply run_display in Hrun. destruct Hrun as (Hlen & _ & Ha & He & _).
  split; [| exact He].
  intros plot_thresh.
  destruct (plot_loop_curves all_scores 100 plot_thresh (length all_scores)) as (Hra & _).
  simpl. unfold plot_loop. rewrite Hra, Ha, Hscores.
  now rewrite <- Hscores, Hlen.
Qed.

Lemma console_shows_plotted_averages_witness :
  exists all_scores w',
    train_agent Stub.replay_env Stub.agent 3 default_max_t 1 (1 # 100) (1 # 2) 13
                (Stub.start [5; 20; 30]) = (Returns all_scores, w') /\
    shown_avg (trace w') = ra_curve (plot_scores all_scores 100 0).
Proof.
  eexists _, _. split; [vm_compute; reflexivity |].
  destruct (console_shows_plotted_averages Stub.replay_env Stub.agent 3 default_max_t
              1 (1 # 100) (1 # 2) 13 (Stub.start [5; 20; 30]) _ _
              ltac:(vm_compute; reflexivity)) as (Havg & _).
  exact (Havg 0).
Defined.

(** X10: a run of [train_agent] that returns has written a success line for
    episode [i] exactly when [i] is the first episode whose mean over the
    trailing 100 scores of the returned history is at or above the threshold,
    and has written none exactly when no episode's mean reaches it. *)
Theorem solved_line_names_first_episode_reaching_threshold {E A F}
    (env : Env E) (agent : AgentOps A)
    (n_episodes max_t : nat) (eps_start eps_end eps_decay success_thresh : Q)
    (w : world E A F) all_scores w' :
  train_agent env agent n_episodes max_t eps_start eps_end eps_decay success_thresh w
  = (Returns all_scores, w') ->
  (forall i, solved_at (trace w') = solved_at (trace w) ++ [i]
             <-> first_reaching all_scores success_thresh i) /\
  (solved_at (trace w') = solved_at (trace w)
   <-> forall j, (j < n_episodes)%nat ->
                 ~ success_thresh <= running_average all_scores 100 j).
Proof.
  intros H. apply train_agent_returns in H. destruct H as (st & Hrun & Hscores).
  apply run_display in Hrun. destruct Hrun as (Hlen & _ & _ & _ & _ & _ & Hsol).
  rewrite Hscores in *. rewrite <- Hlen in Hsol |- *. rewrite Hsol. clear Hsol.
  pose proof (find_reached_iff all_scores success_thresh) as Hfirst.
  pose proof (find_seq_none (reached success_thresh all_scores) (length all_scores))
    as Hnone.
  destruct (find (reached success_thresh all_scores) (seq 0 (length all_scores)))
    as [j |].
  - split.
    + intros i. split.
      * intros Heq. apply app_inv_head in Heq. inversion Heq; subst.
        now apply Hfirst.
      * intros Hi. destruct i as [| i]; [destruct Hi as (Hi & _); lia |].
        apply Hfirst in Hi. now inversion Hi.
    + split.
      * intros Heq. apply (f_equal (@length nat)) in Heq.
        rewrite length_app in Heq. simpl in Heq. lia.
      * intros Hno. exfalso.
        destruct (proj1 (Hfirst j) eq_refl) as (Hj & Hr & _).
        apply (Hno j); [lia |]. now replace (S j - 1)%nat with j in Hr by lia.
  - split.
    + intros i. split.
      * intros Heq. apply app_inv_head in Heq. discriminate.
      * intros Hi. destruct i as [| i]; [destruct Hi as (Hi & _); lia |].
        apply Hfirst in Hi. discriminate.
    + split; [| now rewrite app_nil_r].
      intros _ j Hj Hle. apply Qle_bool_iff in Hle.
      unfold reached in Hnone. rewrite (proj1 Hnone eq_refl j Hj) in Hle. discriminate.
Qed.

Lemma solved_line_names_first_episode_reaching_threshold_witness :
  exists all_scores w',
    train_agent Stub.replay_env Stub.agent 3 default_max_t 1 (1 # 100) (1 # 2) 13
                (Stub.start [5; 20; 30]) = (Returns all_scores, w') /\
    first_reaching all_scores 13 3.
Proof.
  eexists _, _. split; [vm_compute; reflexivity |].
  destruct (solved_line_names_first_episode_reaching_threshold
              Stub.replay_env Stub.agent 3 default_max_t
              1 (1 # 100) (1 # 2) 13 (Stub.start [5; 20; 30]) _ _
              ltac:(vm_compute; reflexivity)) as (Hline & _).
  apply Hline. vm_compute; reflexivity.
Defined.

Lemma multiples_of_hundred n :
  length (filter (fun i => (i mod 100 =? 0)%nat) (seq 1 n)) = (n / 100)%nat.
Proof.
  induction n as [| n IH]; [reflexivity |].
  rewrite seq_S, filter_app, length_app, IH.
  change (1 + n)%nat with (S n).
  assert (Hlast : length (filter (fun i => (i mod 100 =? 0)%nat) [S n])
                  = if (S n mod 100 =? 0)%nat then 1%nat else 0%nat).
  { cbv beta iota delta [filter]. now destruct (S n mod 100 =? 0)%nat. }
  rewrite Hlast.
  pose proof (Nat.div_mod_eq n 100) as Hn.
  pose proof (Nat.div_mod_eq (S n) 100) as Hs.
  pose proof (Nat.mod_upper_bound n 100 ltac:(lia)) as Bn.
  pose proof (Nat.mod_upper_bound (S n) 100 ltac:(lia)) as Bs.
  destruct (Nat.eqb_spec (S n mod 100) 0) as [Hz | Hnz]; lia.
Qed.

(** X12: a run of [train_agent] that returns has written an
    "Episode i/n" line for exactly the episodes [i <= n_episodes] that are
    multiples of 100, in order: [n_episodes / 100] lines in all. *)
Theorem progress_line_every_hundred_episodes {E A F} (env : Env E) (agent : AgentOps A)
    (n_episodes max_t : nat) (eps_start eps_end eps_decay success_thresh : Q)
    (w : world E A F) all_scores w' :
  train_agent env agent n_episodes max_t eps_start eps_end eps_decay success_thresh w
  = (Returns all_scores, w') ->
  progress_at (trace w')
  = progress_at (trace w) ++ filter (fun i => (i mod 100 =? 0)%nat) (seq 1 n_episodes) /\
  length (progress_at (trace w'))
  = (length (progress_at (trace w)) + n_episodes / 100)%nat.
Proof.
  intros H. apply train_agent_returns in H. destruct H as (st & Hrun & _).
  apply run_display in Hrun. destruct Hrun as (_ & _ & _ & _ & Hp & _).
  split; [exact Hp |].
  now rewrite Hp, length_app, multiples_of_hundred.
Qed.

Lemma progress_line_every_hundred_episodes_witness :
  exists all_scores w',
    train_agent (Stub.env 1) Stub.agent 250 default_max_t 1 (1 # 100) 1 13
                (Stub.start tt) = (Returns all_scores, w') /\
    progress_at (trace w') = [100; 200]%nat.
Proof.
  eexists _, _. split; [vm_compute; reflexivity |].
  destruct (progress_line_every_hundred_episodes (Stub.env 1) Stub.agent 250
              default_max_t 1 (1 # 100) 1 13 (Stub.start tt) _ _
              ltac:(vm_compute; reflexivity)) as (Hp & _).
  rewrite Hp. vm_compute. reflexivity.
Defined.

(** X13: [plot_scores], given the history a run of [train_agent] returned and
    the threshold of that run, marks the episode the run announced as solved
    whenever the running mean there is strictly above the threshold and not
    zero; and whenever it draws a marker, the run had announced success at
    that episode or an earlier one. *)
Theorem plot_marks_announced_episode {E A F} (env : Env E) (agent : AgentOps A)
    (n_episodes max_t : nat) (eps_start eps_end eps_decay success_thresh : Q)
    (w : world E A F) all_scores w' :
  train_agent env agent n_episodes max_t eps_start eps_end eps_decay success_thresh w
  = (Returns all_scores, w') ->
  (forall i,
      solved_at (trace w') = solved_at (trace w) ++ [i] ->
      success_thresh < running_average all_scores 100 (i - 1) ->
      ~ running_average all_scores 100 (i - 1) == 0 ->
      marker (plot_scores all_scores 100 success_thresh)
      = Some (i, running_average all_scores 100 (i - 1))) /\
  (forall x y,
      marker (plot_scores all_scores 100 success_thresh) = Some (x, y) ->
      exists i, (i <= x)%nat /\ solved_at (trace w') = solved_at (trace w) ++ [i]).
Proof.
  intros H. pose proof H as Hrun.
  apply train_agent_returns in Hrun. destruct Hrun as (st & Hrun & Hscores).
  apply run_display in Hrun. destruct Hrun as (Hlen & _ & _ & _ & _ & _ & Hsol).
  rewrite Hscores in *. rewrite <- Hlen in Hsol. split.
  - intros i Hline Hstrict Hnz.
    rewrite Hsol in Hline. apply app_inv_head in Hline.
    destruct (find _ _) as [j |] eqn:Hfind; [| discriminate].
    inversion Hline; subst i. apply find_reached_iff in Hfind.
    destruct Hfind as (Hi & _ & Hbefore).
    apply marker_iff. split; [| exact Hnz].
    repeat split; try lia; try assumption.
    intros j' Hj' Hgt. apply (Hbefore j' Hj'). now apply Qlt_le_weak.
  - intros x y Hm. apply marker_iff in Hm.
    destruct Hm as ((Hx & Hy & Hgt & _) & _).
    rewrite Hsol.
    destruct (find _ _) as [j |] eqn:Hfind.
    + exists (S j). split; [| reflexivity].
      apply find_seq_first in Hfind. destruct Hfind as (_ & _ & Hbefore).
      destruct (Nat.le_gt_cases (S j) x) as [Hle | Hlt]; [exact Hle |].
      exfalso. specialize (Hbefore (x - 1)%nat ltac:(lia)).
      unfold reached in Hbefore. rewrite <- Hy in Hbefore.
      apply Qlt_le_weak, Qle_bool_iff in Hgt. congruence.
    + exfalso. pose proof (proj1 (find_seq_none _ _) Hfind (x - 1)%nat ltac:(lia)) as Hno.
      unfold reached in Hno. rewrite <- Hy in Hno.
      apply Qlt_le_weak, Qle_bool_iff in Hgt. congruence.
Qed.

Lemma plot_marks_announced_episode_witness :
  exists all_scores w',
    train_agent Stub.replay_env Stub.agent 3 default_max_t 1 (1 # 100) (1 # 2) 13
                (Stub.start [5; 20; 30]) = (Returns all_scores, w') /\
    marker (plot_scores all_scores 100 13)
    = Some (3%nat, running_average all_scores 100 2).
Proof.
  eexists _, _. split; [vm_compute; reflexivity |].
  destruct (plot_marks_announced_episode Stub.replay_env Stub.agent 3 default_max_t
              1 (1 # 100) (1 # 2) 13 (Stub.start [5; 20; 30]) _ _
              ltac:(vm_compute; reflexivity)) as (Hmark & _).
  apply (Hmark 3%nat).
  - vm_compute; reflexivity.
  - vm_compute; reflexivity.
  - vm_compute. discriminate.
Defined.

(** ** What the training loop leaves alone *)

(** The events [train_agent] can cause. *)
Definition training_event (e : event) : bool :=
  match e with
  | EnvReset | EnvStep _ | SetPostfix _ _ | TqdmWrite _ => true
  | _ => false
  end.

Section Respects.

Context {E A F : Type}.
Variable R : world E A F -> world E A F -> Prop.
Hypothesis R_refl : forall w, R w w.
Hypothesis R_trans : forall w1 w2 w3, R w1 w2 -> R w2 w3 -> R w1 w3.

(** A computation every run of which, returning or raising, relates the
    world it starts in to the world it ends in. *)
Definition respects {X} (m : M E A F X) : Prop :=
  forall w r w', m w = (r, w') -> R w w'.

Lemma respects_ret {X} (x : X) : respects (ret x).
Proof. intros w r w' H. inversion H; subst. apply R_refl. Qed.

Lemma respects_bind {X Y} (m : M E A F X) (k : X -> M E A F Y) :
  respects m -> (forall x, respects (k x)) -> respects (bind m k).
Proof.
  intros Hm Hk w r w' H. unfold bind in H.
  destruct (m w) as [[x | e] w1] eqn:Hmw.
  - apply R_trans with w1; [now apply Hm in Hmw | now apply Hk in H].
  - inversion H; subst. now apply Hm in Hmw.
Qed.

Lemma respects_when (b : bool) (m : M E A F unit) : respects m -> respects (when b m).
Proof. intros H. destruct b; [exact H | apply respects_ret]. Qed.

Variable allowed : event -> bool.
Hypothesis R_emit : forall e, allowed e = true -> respects (emit e).
Hypothesis R_env : forall X (f : E -> outcome X * E), respects (on_env f).
Hypothesis R_agent : forall X (f : A -> outcome X * A), respects (on_agent f).
Hypothesis allowed_step : forall a, allowed (EnvStep a) = true.

Variable env : Env E.
Variable agent : AgentOps A.

Lemma respects_time_steps fuel : forall epsilon state score,
  respects (time_steps env agent fuel epsilon state score).
Proof.
  induction fuel as [| fuel IH]; intros epsilon state score; simpl.
  - apply respects_ret.
  - apply respects_bind; [apply R_agent | intros a].
    apply respects_bind; [apply R_emit, allowed_step | intros _].
    apply respects_bind; [apply R_env | intros info].
    apply respects_bind; [apply R_agent | intros _].
    destruct (local_done info); [apply respects_ret | apply IH].
Qed.

Hypothesis allowed_reset : allowed EnvReset = true.
Hypothesis allowed_postfix : forall a e, allowed (SetPostfix a e) = true.
Hypothesis allowed_write : forall m, allowed (TqdmWrite m) = true.

Lemma respects_episode n_episodes max_t eps_end eps_decay success_thresh i st :
  respects (episode env agent n_episodes max_t eps_end eps_decay success_thresh i st).
Proof.
  unfold episode.
  apply respects_bind; [apply R_emit, allowed_reset | intros _].
  apply respects_bind; [apply R_env | intros info].
  apply respects_bind; [apply respects_time_steps | intros score].
  apply respects_bind; [apply R_emit, allowed_postfix | intros _].
  apply respects_bind; [apply respects_when, R_emit, allowed_write | intros _].
  match goal with |- context [if ?b then _ else _] => destruct b end.
  - apply respects_bind; [apply R_emit, allowed_write | intros _; apply respects_ret].
  - apply respects_ret.
Qed.

Lemma respects_episode_loop n_episodes max_t eps_end eps_decay success_thresh k :
  forall i st,
  respects (episode_loop env agent n_episodes max_t eps_end eps_decay success_thresh
                         k i st).
Proof.
  induction k as [| k IH]; intros i st; simpl.
  - apply respects_ret.
  - apply respects_bind; [apply respects_episode | intros st'; apply IH].
Qed.

Lemma respects_train_agent n_episodes max_t eps_start eps_end eps_decay success_thresh :
  respects (train_agent env agent n_episodes max_t eps_start eps_end eps_decay
                        success_thresh).
Proof.
  unfold train_agent.
  apply respects_bind; [apply respects_episode_loop | intros st; apply respects_ret].
Qed.

End Respects.

(** The trace has grown by events of the given kind and the file system is
    as it was. *)
Definition grew_by {E A F} (allowed : event -> bool) (w w' : world E A F) : Prop :=
  fs_st w' = fs_st w /\
  exists tr, trace w' = trace w ++ tr /\ forallb allowed tr = true.

Lemma grew_by_refl {E A F} allowed (w : world E A F) : grew_by allowed w w.
Proof. split; [reflexivity |]. exists []. now rewrite app_nil_r. Qed.

Lemma grew_by_trans {E A F} allowed (w1 w2 w3 : world E A F) :
  grew_by allowed w1 w2 -> grew_by allowed w2 w3 -> grew_by allowed w1 w3.
Proof.
  intros (F1 & tr1 & T1 & A1) (F2 & tr2 & T2 & A2). split; [congruence |].
  exists (tr1 ++ tr2). split.
  - now rewrite T2, T1, app_assoc.
  - rewrite forallb_app, A1, A2. reflexivity.
Qed.

Lemma grew_by_emit {E A F} (allowed : event -> bool) e :
  allowed e = true -> respects (grew_by allowed) (emit e : M E A F unit).
Proof.
  intros He w r w' H. apply emit_frame in H. destruct H as (_ & T & _ & _ & Fs).
  split; [exact Fs |]. exists [e]. split; [exact T |]. simpl. now rewrite He.
Qed.

Lemma grew_by_on_env {E A F} allowed X (f : E -> outcome X * E) :
  respects (grew_by allowed) (on_env f : M E A F X).
Proof.
  intros w r w' H. apply on_env_frame in H. destruct H as (T & _ & Fs).
  split; [exact Fs |]. exists []. now rewrite app_nil_r.
Qed.

Lemma grew_by_on_agent {E A F} allowed X (f : A -> outcome X * A) :
  respects (grew_by allowed) (on_agent f : M E A F X).
Proof.
  intros w r w' H. apply on_agent_frame in H. destruct H as (T & _ & Fs).
  split; [exact Fs |]. exists []. now rewrite app_nil_r.
Qed.

(** X14: whether it returns or raises, [train_agent] leaves the file system
    untouched, and all it adds to the trace are environment resets and steps,
    progress-bar updates and console lines; in particular it neither opens
    nor closes the environment. *)
Theorem train_agent_only_drives_env_and_console {E A F} (env : Env E)
    (agent : AgentOps A)
    (n_episodes max_t : nat) (eps_start eps_end eps_decay success_thresh : Q)
    (w : world E A F) r w' :
  train_agent env agent n_episodes max_t eps_start eps_end eps_decay success_thresh w
  = (r, w') ->
  fs_st w' = fs_st w /\
  exists tr, trace w' = trace w ++ tr /\ forallb training_event tr = true.
Proof.
  apply (respects_train_agent (grew_by training_event)
           (grew_by_refl _) (grew_by_trans _) training_event
           (grew_by_emit _) (grew_by_on_env _) (grew_by_on_agent _)); reflexivity.
Qed.

Lemma train_agent_only_drives_env_and_console_witness :
  exists r w' tr,
    train_agent Stub.crashing_env Stub.agent 3 default_max_t 1 (1 # 100) (1 # 2) 13
                (Stub.start tt) = (r, w') /\
    trace w' = tr /\ forallb training_event tr = true.
Proof.
  eexists _, _, _. split; [vm_compute; reflexivity |].
  destruct (train_agent_only_drives_env_and_console Stub.crashing_env Stub.agent
              3 default_max_t 1 (1 # 100) (1 # 2) 13 (Stub.start tt) _ _
              ltac:(vm_compute; reflexivity)) as (_ & tr & Htr & Hall).
  simpl in Htr. rewrite <- Htr in Hall. split; [reflexivity | exact Hall].
Defined.

(** ** Exceptions in the training loop *)

Lemma bind_raises_inv {E A F X Y} (m : M E A F X) (k : X -> M E A F Y) w e w' :
  bind m k w = (Raises e, w') ->
  m w = (Raises e, w') \/
  exists x w1, m w = (Returns x, w1) /\ k x w1 = (Raises e, w').
Proof.
  unfold bind. destruct (m w) as [[x | e1] w1]; intros H.
  - right. now exists x, w1.
  - left. now inversion H.
Qed.

Section Raising.

Context {E A F : Type}.
Variable env : Env E.
Variable agent : AgentOps A.
Variables (n_episodes max_t : nat) (eps_end eps_decay success_thresh : Q).

Lemma time_steps_only_steps fuel epsilon state score (w : world E A F) r w' :
  time_steps env agent fuel epsilon state score w = (r, w') ->
  exists tr, trace w' = trace w ++ tr /\ forallb is_step tr = true.
Proof.
  intros H.
  apply (respects_time_steps (grew_by is_step) (grew_by_refl _) (grew_by_trans _)
           is_step (grew_by_emit _) (grew_by_on_env _) (grew_by_on_agent _)
           (fun _ => eq_refl) env agent) in H.
  now destruct H.
Qed.

(** An episode that raises does so while resetting or stepping: it has shown
    nothing on the console. *)
Lemma episode_raises i st (w : world E A F) e w' :
  episode env agent n_episodes max_t eps_end eps_decay success_thresh i st w
  = (Raises e, w') ->
  count is_postfix (trace w') = count is_postfix (trace w) /\
  solved_at (trace w') = solved_at (trace w) /\
  count is_reset (trace w') = S (count is_reset (trace w)).
Proof.
  unfold episode. intros H.
  apply bind_raises_inv in H. destruct H as [H | (u0 & w0 & H0 & H)]; [discriminate |].
  apply emit_frame in H0. destruct H0 as (_ & T0 & _).
  assert (Hsteps : exists tr, trace w' = trace w0 ++ tr /\ forallb is_step tr = true).
  { apply bind_raises_inv in H. destruct H as [H | (info & w1 & H1 & H)].
    - apply on_env_frame in H. exists []. rewrite app_nil_r. tauto.
    - apply on_env_frame in H1. destruct H1 as (T1 & _). rewrite <- T1.
      apply bind_raises_inv in H. destruct H as [H | (score & w2 & H2 & H)].
      + now apply time_steps_only_steps in H.
      + exfalso. unfold bind, emit, when, ret in H.
        destruct (i mod 100 =? 0)%nat;
          destruct (negb (success st) && Qle_bool success_thresh _); discriminate. }
  destruct Hsteps as (tr & T & Hall).
  rewrite T, T0. rewrite !count_app, !solved_at_app.
  rewrite (count_steps is_postfix tr), (count_steps is_reset tr),
    (solved_at_steps tr) by (auto || exact Hall).
  unfold count. simpl. rewrite !app_nil_r. repeat split; lia.
Qed.

Lemma loop_raises k : forall i st (w : world E A F) e w',
  episode_loop env agent n_episodes max_t eps_end eps_decay success_thresh k i st w
  = (Raises e, w') ->
  exists j stj wj,
    (j < k)%nat /\
    episode_loop env agent n_episodes max_t eps_end eps_decay success_thresh j i st w
    = (Returns stj, wj) /\
    episode env agent n_episodes max_t eps_end eps_decay success_thresh (i + j) stj wj
    = (Raises e, w').
Proof.
  induction k as [| k IH]; intros i st w e w' H; [discriminate |].
  simpl in H. apply bind_raises_inv in H. destruct H as [H | (st1 & w1 & H1 & H)].
  - exists 0%nat, st, w. rewrite Nat.add_0_r. repeat split; [lia | exact H].
  - apply IH in H. destruct H as (j & stj & wj & Hj & Hrun & Hfail).
    exists (S j), stj, wj. split; [lia |]. split.
    + simpl. now rewrite (bind_step _ _ _ _ _ H1).
    + now rewrite Nat.add_succ_r.
Qed.

End Raising.

(** X15: [train_agent] catches nothing.  It raises exactly when, after some
    number [j < n_episodes] of completed episodes, episode [j + 1] raises;
    the exception and the final world are then those of that episode, no
    later episode is started, and the console shows the [j] completed
    episodes only. *)
Theorem train_agent_stops_at_first_failing_episode {E A F} (env : Env E)
    (agent : AgentOps A)
    (n_episodes max_t : nat) (eps_start eps_end eps_decay success_thresh : Q)
    (w : world E A F) e w' :
  (train_agent env agent n_episodes max_t eps_start eps_end eps_decay success_thresh w
   = (Raises e, w') ->
   exists j stj wj,
     (j < n_episodes)%nat /\
     after_k_episodes env agent n_episodes max_t eps_start eps_end eps_decay
                      success_thresh j w = (Returns stj, wj) /\
     episode env agent n_episodes max_t eps_end eps_decay success_thresh (S j) stj wj
     = (Raises e, w') /\
     count is_reset (trace w') = (count is_reset (trace w) + S j)%nat /\
     count is_postfix (trace w') = (count is_postfix (trace w) + j)%nat) /\
  (forall j stj wj,
     (j < n_episodes)%nat ->
     after_k_episodes env agent n_episodes max_t eps_start eps_end eps_decay
                      success_thresh j w = (Returns stj, wj) ->
     episode env agent n_episodes max_t eps_end eps_decay success_thresh (S j) stj wj
     = (Raises e, w') ->
     train_agent env agent n_episodes max_t eps_start eps_end eps_decay success_thresh w
     = (Raises e, w')).
Proof.
  unfold train_agent, after_k_episodes. split.
  - intros H. apply bind_raises_inv in H.
    destruct H as [H | (st & w1 & _ & H)]; [| discriminate].
    apply loop_raises in H. destruct H as (j & stj & wj & Hj & Hrun & Hfail).
    exists j, stj, wj. repeat split; try assumption.
    + apply loop_returns in Hrun. destruct Hrun as (_ & _ & _ & _ & Hres & _).
      apply episode_raises in Hfail. destruct Hfail as (_ & _ & Hreset). lia.
    + apply loop_returns in Hrun. destruct Hrun as (_ & _ & _ & _ & _ & Hpost & _).
      apply episode_raises in Hfail. destruct Hfail as (Hp & _). lia.
  - intros j stj wj Hj Hrun Hfail.
    apply bind_raises.
    replace n_episodes with (j + S (n_episodes - S j))%nat at 2 by lia.
    rewrite loop_app, (bind_step _ _ _ _ _ Hrun). simpl.
    now apply bind_raises.
Qed.

Lemma train_agent_stops_at_first_failing_episode_witness :
  train_agent Stub.crashing_env Stub.agent 3 default_max_t 1 (1 # 100) (1 # 2) 13
              (Stub.start tt)
  = (Raises (Exception "UnityEnvironment worker closed"),
     {| env_st := tt; agent_st := tt; fs_st := [];
        trace := [EnvReset; EnvStep 0%Z] |}).
Proof.
  destruct (train_agent_stops_at_first_failing_episode Stub.crashing_env Stub.agent
              3 default_max_t 1 (1 # 100) (1 # 2) 13 (Stub.start tt)
              (Exception "UnityEnvironment worker closed")
              {| env_st := tt; agent_st := tt; fs_st := [];
                 trace := [EnvReset; EnvStep 0%Z] |}) as (_ & Hconv).
  apply (Hconv 0%nat (initial_state 1) (Stub.start tt)).
  - lia.
  - reflexivity.
  - vm_compute; reflexivity.
Defined.

(** ** A complete run of [main] *)

Definition is_mkdir (e : event) : bool :=
  match e with Mkdir _ => true | _ => false end.

Definition is_seed (e : event) : bool :=
  match e with SetSeed _ => true | _ => false end.

(** Names the pieces of a hypothesis [bind m k w = (Returns _, _)]. *)
Ltac bind_as H x w1 Hx :=
  apply bind_returns in H; destruct H as (x & w1 & Hx & H).

Section MainFacts.

Context {E A F : Type}.
Variable env : Env E.
Variable agent : AgentOps A.
Variable host : Host A F.

(** What [main] has put on the trace by the time the model is saved. *)
Lemma main_until_saved_trace args (w : world E A F) all_scores w1 :
  main_until_saved env agent host args w = (Returns all_scores, w1) ->
  exists first_info action_size tr_train,
    trace w1
    = trace w
      ++ (if deterministic args then [SetSeed 42] else [])
      ++ [EnvOpen (env_path args) (no_graphics args); EnvReset;
          Print (NumberOfAgents (agents first_info));
          Print (NumberOfActions action_size);
          Print (StatesLookLike (vector_observation first_info));
          Print (StatesHaveLength (length (vector_observation first_info)))]
      ++ tr_train
      ++ (if is_dir host (output args) (fs_st w) then [] else [Mkdir (output args)])
      ++ [TorchSave (joinpath (output args) "model.pt")] /\
    forallb training_event tr_train = true /\
    count is_reset tr_train = episodes args /\
    length all_scores = episodes args.
Proof.
  unfold main_until_saved. intros H.
  bind_as H u1 w_1 H1. bind_as H u2 w_2 H2. bind_as H u3 w_3 H3.
  bind_as H u4 w_4 H4. bind_as H first_info w_5 H5. bind_as H u6 w_6 H6.
  bind_as H action_size w_7 H7. bind_as H u8 w_8 H8. bind_as H u9 w_9 H9.
  bind_as H u10 w_10 H10. bind_as H u11 w_11 H11. bind_as H scores' w_12 H12.
  bind_as H exists_already w_13 H13. bind_as H u14 w_14 H14.
  bind_as H u15 w_15 H15. bind_as H u16 w_16 H16.
  inversion H; subst all_scores w1. clear H.
  exists first_info, action_size.
  assert (T1 : trace w_1 = trace w ++ (if deterministic args then [SetSeed 42] else [])
               /\ fs_st w_1 = fs_st w).
  { unfold when in H1. destruct (deterministic args).
    - apply emit_frame in H1. tauto.
    - inversion H1. now rewrite app_nil_r. }
  apply emit_frame in H2, H4, H6, H8, H9, H10, H15.
  apply on_env_frame in H3, H5, H7. apply on_agent_frame in H11.
  apply on_fs_frame in H16.
  destruct T1 as (T1 & F1), H2 as (_ & T2 & _ & _ & F2), H3 as (T3 & _ & F3),
    H4 as (_ & T4 & _ & _ & F4), H5 as (T5 & _ & F5), H6 as (_ & T6 & _ & _ & F6),
    H7 as (T7 & _ & F7), H8 as (_ & T8 & _ & _ & F8), H9 as (_ & T9 & _ & _ & F9),
    H10 as (_ & T10 & _ & _ & F10), H11 as (T11 & _ & F11),
    H15 as (_ & T15 & _), H16 as (T16 & _).
  pose proof H12 as Hgrew.
  apply (respects_train_agent (grew_by training_event)
           (grew_by_refl _) (grew_by_trans _) training_event
           (grew_by_emit _) (grew_by_on_env _) (grew_by_on_agent _)) in Hgrew;
    try reflexivity.
  destruct Hgrew as (F12 & tr_train & T12 & Hall).
  exists tr_train.
  apply train_agent_returns in H12. destruct H12 as (st & Hrun & Hscores).
  unfold after_k_episodes in Hrun. apply loop_returns in Hrun.
  destruct Hrun as (earned & Hlen & Hst & _ & Hres & _).
  assert (T13 : trace w_13 = trace w_12 /\ fs_st w_13 = fs_st w_12 /\
                exists_already = is_dir host (output args) (fs_st w_12)).
  { unfold on_fs in H13. inversion H13. now subst. }
  destruct T13 as (T13 & F13 & Hdir).
  assert (T14 : trace w_14 = trace w_13 ++ (if exists_already then []
                                            else [Mkdir (output args)])).
  { unfold when in H14. destruct exists_already; simpl in H14.
    - inversion H14. now rewrite app_nil_r.
    - bind_as H14 u w_m Hm. apply emit_frame in Hm. apply on_fs_frame in H14.
      destruct Hm as (_ & Tm & _), H14 as (T14 & _). congruence. }
  assert (Hfs : fs_st w_12 = fs_st w) by congruence.
  rewrite Hfs in Hdir. subst exists_already.
  repeat split.
  - rewrite T16, T15, T14, T13, T12, T11, T10, T9, T8, T7, T6, T5, T4, T3, T2, T1.
    rewrite <- !app_assoc. reflexivity.
  - exact Hall.
  - rewrite T12, count_app in Hres. lia.
  - rewrite <- Hscores, Hst, scores_after. simpl. exact Hlen.
Qed.

End MainFacts.

Lemma count_disjoint (p q : event -> bool) tr :
  (forall e, q e = true -> p e = false) -> forallb q tr = true -> count p tr = 0%nat.
Proof.
  intros Hpq. unfold count. induction tr as [| e tr IH]; [reflexivity |].
  simpl. intros H. apply andb_prop in H. destruct H as [He Hs].
  rewrite (Hpq e He). now apply IH.
Qed.

Lemma main_returns {E A F} (env : Env E) (agent : AgentOps A) (host : Host A F)
      args (w : world E A F) u w' :
  main env agent host args w = (Returns u, w') ->
  exists all_scores w1,
    main_until_saved env agent host args w = (Returns all_scores, w1) /\
    trace w'
    = trace w1
      ++ [EnvClose;
          SaveFig (joinpath (output args) "training_scores.png")
                  (plot_scores all_scores 100 (success_threshold args))].
Proof.
  unfold main. intros H.
  bind_as H all_scores w1 Hsaved. bind_as H u1 w2 H1. bind_as H u2 w3 H2.
  bind_as H u3 w4 H3.
  exists all_scores, w1. split; [exact Hsaved |].
  apply emit_frame in H1, H3. apply on_env_frame in H2. apply on_fs_frame in H.
  destruct H1 as (_ & T1 & _), H2 as (T2 & _), H3 as (_ & T3 & _), H as (T4 & _).
  rewrite T4, T3, T2, T1, <- app_assoc. reflexivity.
Qed.

(** X16: a run of [main] that returns has trained for [--episodes] episodes
    (one reset before training and one per episode), then saved the model to
    [<output>/model.pt], then closed the environment, then saved to
    [<output>/training_scores.png] the figure [plot_scores] makes of the
    training scores with a window of 100 and the configured threshold: these
    are the last three events of the run, in this order. *)
Theorem main_saves_model_closes_env_then_plots {E A F} (env : Env E)
    (agent : AgentOps A) (host : Host A F) args (w : world E A F) w' :
  main env agent host args w = (Returns tt, w') ->
  exists all_scores w1 before,
    main_until_saved env agent host args w = (Returns all_scores, w1) /\
    length all_scores = episodes args /\
    trace w'
    = before
      ++ [TorchSave (joinpath (output args) "model.pt");
          EnvClose;
          SaveFig (joinpath (output args) "training_scores.png")
                  (plot_scores all_scores 100 (success_threshold args))] /\
    count is_reset (trace w') = (count is_reset (trace w) + 1 + episodes args)%nat.
Proof.
  intros H. apply main_returns in H. destruct H as (all_scores & w1 & Hsaved & Htr).
  pose proof (main_until_saved_trace env agent host args w all_scores w1 Hsaved)
    as (first_info & action_size & tr_train & T & Hall & Hres & Hlen).
  exists all_scores, w1.
  exists (trace w
          ++ (if deterministic args then [SetSeed 42] else [])
          ++ [EnvOpen (env_path args) (no_graphics args); EnvReset;
              Print (NumberOfAgents (agents first_info));
              Print (NumberOfActions action_size);
              Print (StatesLookLike (vector_observation first_info));
              Print (StatesHaveLength (length (vector_observation first_info)))]
          ++ tr_train
          ++ (if is_dir host (output args) (fs_st w) then [] else [Mkdir (output args)])).
  split; [exact Hsaved |]. split; [exact Hlen |].
  split.
  - rewrite Htr, T. rewrite <- !app_assoc. reflexivity.
  - rewrite Htr, T. rewrite !count_app, Hres.
    destruct (deterministic args), (is_dir host (output args) (fs_st w));
      unfold count; simpl; lia.
Qed.

Lemma main_saves_model_closes_env_then_plots_witness :
  exists w' before fig,
    main (Stub.env 1) Stub.agent Stub.host (with_episodes 2 default_arguments)
         (Stub.start tt) = (Returns tt, w') /\
    trace w' = before ++ [TorchSave "./outputs/model.pt"; EnvClose;
                          SaveFig "./outputs/training_scores.png" fig].
Proof.
  destruct (main_saves_model_closes_env_then_plots (Stub.env 1) Stub.agent Stub.host
              (with_episodes 2 default_arguments) (Stub.start tt) _
              ltac:(vm_compute; reflexivity))
    as (all_scores & w1 & before & _ & _ & Htr & _).
  eexists _, before, _. split; [vm_compute; reflexivity |]. exact Htr.
Defined.

(** X17: a run of [main] that returns has created the output folder exactly
    when it did not exist at the start of the run, and then once. *)
Theorem main_creates_output_folder_only_if_missing {E A F} (env : Env E)
    (agent : AgentOps A) (host : Host A F) args (w : world E A F) w' :
  main env agent host args w = (Returns tt, w') ->
  count is_mkdir (trace w')
  = (count is_mkdir (trace w)
     + if is_dir host (output args) (fs_st w) then 0 else 1)%nat.
Proof.
  intros H. apply main_returns in H. destruct H as (all_scores & w1 & Hsaved & Htr).
  pose proof (main_until_saved_trace env agent host args w all_scores w1 Hsaved)
    as (first_info & action_size & tr_train & T & Hall & _).
  rewrite Htr, T. rewrite !count_app.
  rewrite (count_disjoint is_mkdir training_event tr_train) by
    (auto; intros e He; destruct e; try discriminate; reflexivity).
  destruct (deterministic args), (is_dir host (output args) (fs_st w));
    unfold count; simpl; lia.
Qed.

Lemma main_creates_output_folder_only_if_missing_witness :
  exists w',
    main (Stub.env 1) Stub.agent Stub.host (with_episodes 2 default_arguments)
         {| env_st := tt; agent_st := tt; fs_st := ["./outputs"%string]; trace := [] |}
    = (Returns tt, w') /\
    count is_mkdir (trace w') = 0%nat.
Proof.
  eexists. split; [vm_compute; reflexivity |].
  rewrite (main_creates_output_folder_only_if_missing (Stub.env 1) Stub.agent Stub.host
             (with_episodes 2 default_arguments)
             {| env_st := tt; agent_st := tt; fs_st := ["./outputs"%string];
                trace := [] |} _ ltac:(vm_compute; reflexivity)).
  reflexivity.
Defined.

(** X18: a run of [main] that returns has seeded the random generators
    exactly when [--deterministic] was given, then once, with seed 42 and
    before the environment was created. *)
Theorem main_seeds_only_in_deterministic_mode {E A F} (env : Env E)
    (agent : AgentOps A) (host : Host A F) args (w : world E A F) w' :
  main env agent host args w = (Returns tt, w') ->
  exists rest,
    trace w'
    = trace w
      ++ (if deterministic args then [SetSeed 42] else [])
      ++ EnvOpen (env_path args) (no_graphics args) :: rest /\
    count is_seed rest = 0%nat.
Proof.
  intros H. apply main_returns in H. destruct H as (all_scores & w1 & Hsaved & Htr).
  pose proof (main_until_saved_trace env agent host args w all_scores w1 Hsaved)
    as (first_info & action_size & tr_train & T & Hall & _).
  exists ([EnvReset;
           Print (NumberOfAgents (agents first_info));
           Print (NumberOfActions action_size);
           Print (StatesLookLike (vector_observation first_info));
           Print (StatesHaveLength (length (vector_observation first_info)))]
          ++ tr_train
          ++ (if is_dir host (output args) (fs_st w) then [] else [Mkdir (output args)])
          ++ [TorchSave (joinpath (output args) "model.pt"); EnvClose;
              SaveFig (joinpath (output args) "training_scores.png")
                      (plot_scores all_scores 100 (success_threshold args))]).
  split.
  - rewrite Htr, T. rewrite <- !app_assoc. reflexivity.
  - rewrite !count_app.
    rewrite (count_disjoint is_seed training_event tr_train) by
      (auto; intros e He; destruct e; try discriminate; reflexivity).
    destruct (is_dir host (output args) (fs_st w)); unfold count; simpl; lia.
Qed.

Lemma main_seeds_only_in_deterministic_mode_witness :
  exists w' rest,
    main (Stub.env 1) Stub.agent Stub.host (with_episodes 2 default_arguments)
         (Stub.start tt) = (Returns tt, w') /\
    trace w' = EnvOpen "./Banana_Linux/Banana.x86_64" false :: rest /\
    count is_seed rest = 0%nat.
Proof.
  destruct (main_seeds_only_in_deterministic_mode (Stub.env 1) Stub.agent Stub.host
              (with_episodes 2 default_arguments) (Stub.start tt) _
              ltac:(vm_compute; reflexivity)) as (rest & Htr & Hseed).
  eexists _, rest. split; [vm_compute; reflexivity |]. split; [exact Htr | exact Hseed].
Defined.

(** An environment whose executable cannot be started. *)
Definition missing_env : Env unit :=
  {| env_open := fun _ _ e => (Raises (Exception "UnityEnvironmentException"), e);
     vector_action_space_size := fun _ => 0%nat;
     env_reset := fun e => (Returns (Stub.info_of 0 false), e);
     env_step := fun _ e => (Returns (Stub.info_of 0 true), e);
     env_close := fun e => (Returns tt, e) |}.

(** X19: if creating the environment raises, [main] ends with that exception
    right there: nothing is reset, the agent is not built, the file system is
    untouched, and the trace holds the seeding (in deterministic mode) and
    the attempt to open the environment only. *)
Theorem main_aborts_when_environment_fails_to_start {E A F} (env : Env E)
    (agent : AgentOps A) (host : Host A F) args (w : world E A F) e s :
  env_open env (env_path args) (no_graphics args) (env_st w) = (Raises e, s) ->
  main env agent host args w
  = (Raises e,
     {| env_st := s; agent_st := agent_st w; fs_st := fs_st w;
        trace := (trace w ++ (if deterministic args then [SetSeed 42] else []))
                 ++ [EnvOpen (env_path args) (no_graphics args)] |}).
Proof.
  intros Hopen. unfold main. apply bind_raises.
  unfold main_until_saved, when.
  destruct (deterministic args).
  - erewrite bind_step by reflexivity.
    erewrite bind_step by reflexivity.
    apply bind_raises. unfold on_env. cbn [env_st agent_st fs_st trace].
    now rewrite Hopen.
  - erewrite bind_step by reflexivity.
    erewrite bind_step by reflexivity.
    apply bind_raises. unfold on_env. cbn [env_st agent_st fs_st trace].
    rewrite Hopen, app_nil_r. now destruct w.
Qed.

Lemma main_aborts_when_environment_fails_to_start_witness :
  main missing_env Stub.agent Stub.host default_arguments (Stub.start tt)
  = (Raises (Exception "UnityEnvironmentException"),
     {| env_st := tt; agent_st := tt; fs_st := [];
        trace := [EnvOpen "./Banana_Linux/Banana.x86_64" false] |}).
Proof.
  apply (main_aborts_when_environment_fails_to_start missing_env Stub.agent Stub.host
           default_arguments (Stub.start tt)).
  reflexivity.
Defined.

(** X20: the slice behind point [idx] of the running curves holds
    [min(idx + 1, running_window_size)] scores: all the scores so far while
    fewer than [running_window_size] episodes have been played, and the last
    [running_window_size] of them afterwards. *)
Theorem running_window_grows_then_slides (all_scores : list Q)
    (running_window_size idx : nat) :
  (idx < length all_scores)%nat ->
  length (trailing all_scores running_window_size idx)
  = Nat.min (idx + 1) running_window_size /\
  ((idx + 1 <= running_window_size)%nat ->
   trailing all_scores running_window_size idx = firstn (idx + 1) all_scores) /\
  trailing all_scores running_window_size idx
  = skipn (idx + 1 - running_window_size) (firstn (idx + 1) all_scores).
Proof.
  intros Hidx. unfold trailing, slice. split; [| split].
  - rewrite length_firstn, length_skipn. lia.
  - intros Hw. replace (idx + 1 - running_window_size)%nat with 0%nat by lia.
    simpl. now rewrite Nat.sub_0_r.
  - now rewrite skipn_firstn_comm.
Qed.

Lemma running_window_grows_then_slides_witness :
  trailing [1; 5; 3; 20] 2 3 = [3; 20] /\ trailing [1; 5; 3; 20] 2 0 = [1].
Proof.
  destruct (running_window_grows_then_slides [1; 5; 3; 20] 2 3 ltac:(simpl; lia))
    as (_ & _ & Hslide).
  destruct (running_window_grows_then_slides [1; 5; 3; 20] 2 0 ltac:(simpl; lia))
    as (_ & Hgrow & _).
  split; [rewrite Hslide; reflexivity | rewrite (Hgrow ltac:(lia)); reflexivity].
Defined.
